(** * form-courier: the intake pipeline and its rate limiter

    A shallow embedding of the Go package [form_mailer] (the request
    handler [HandleContact], [clientIP], [verifyHMAC] and the token-bucket
    limiter [Allow]) together with the properties of the specification
    that concern them; then the configuration read from the environment
    ([GetConfig], package [env]) and the middleware of [cmd/api], with
    further properties of the code.

    Go strings and byte slices are byte sequences: they are modelled by
    [string] (a list of 8-bit [ascii] values).  Go's [int] is the 64-bit
    two's-complement integer: it is modelled by [Z] with the wrap-around
    written out ([GoInt.wrap]).  Maps ([buckets], [cfg.Sites], HTTP
    headers) are [gmap]s. *)

From Stdlib Require Import ZArith Lia Bool Ascii String List.
From stdpp Require Import base option strings list gmap.

Local Open Scope string_scope.
Local Open Scope Z_scope.

(* ================================================================== *)
(** * Part I: definitions                                              *)
(* ================================================================== *)

(** ** Go's 64-bit [int] *)
Module GoInt.

Definition min_int : Z := - 2 ^ 63.
Definition max_int : Z := 2 ^ 63 - 1.

(** Wrap-around of signed 64-bit arithmetic. *)
Definition wrap (z : Z) : Z := (z + 2 ^ 63) mod 2 ^ 64 - 2 ^ 63.

Definition in_range (z : Z) : Prop := min_int <= z <= max_int.

Definition add (a b : Z) : Z := wrap (a + b).
Definition sub (a b : Z) : Z := wrap (a - b).
Definition mul (a b : Z) : Z := wrap (a * b).

End GoInt.

(** ** The clock

    [time.Now()] is an input of the model: an instant is the number of
    nanoseconds read on the monotonic clock.  [Time.Sub] returns a
    [Duration] (an [int64] count of nanoseconds) and saturates. *)
(** ** [float64]

    A finite [float64] is a whole multiple of the least positive value
    2^-1074; it is represented by that multiple.  Rounding is to the
    nearest value with 53 significant bits (or a multiple of 2^-1074,
    below 2^-1022), ties to the even one.  The values of this
    development stay below 2^64: there is no overflow. *)
Module float64.

(** The number one. *)
Definition one : Z := 2 ^ 1074.

(** [n/d] to the nearest integer, ties to even, for [0 <= n], [0 < d]. *)
Definition nearest_even (n d : Z) : Z :=
  let q := n / d in
  let r := n mod d in
  if 2 * r <? d then q
  else if d <? 2 * r then q + 1
  else if Z.even q then q else q + 1.

(** The [float64] nearest to [n/d], for [0 <= n] and [0 < d]: the
    quotient in units of 2^-1074 is rounded at the place 52 bits below
    its leading bit. *)
Definition round_pos (n d : Z) : Z :=
  let sh := Z.max 0 (Z.log2 (n * one / d) - 52) in
  nearest_even (n * one) (d * 2 ^ sh) * 2 ^ sh.

Definition round (n d : Z) : Z := Z.sgn n * round_pos (Z.abs n) d.

(** [float64(i)] *)
Definition of_int (i : Z) : Z := round i 1.

(** [x + y] and [x / y] *)
Definition add (x y : Z) : Z := round (x + y) one.
Definition div (x y : Z) : Z := Z.sgn y * round x (Z.abs y).

(** [int(x)]: the fraction is discarded. *)
Definition to_int (x : Z) : Z := Z.quot x one.

End float64.

Module GoTime.

Definition Minute : Z := 60 * 1000000000.

Definition Sub (t u : Z) : Z :=
  let d := t - u in
  if d <? GoInt.min_int then GoInt.min_int
  else if GoInt.max_int <? d then GoInt.max_int
  else d.

(** [d.Minutes()]:
    [min := d / Minute; nsec := d % Minute;
     return float64(min) + float64(nsec)/(60*1e9)]. *)
Definition Minutes (d : Z) : Z :=
  let min := Z.quot d Minute in
  let nsec := Z.rem d Minute in
  float64.add (float64.of_int min)
    (float64.div (float64.of_int nsec) (float64.of_int (60 * 1000000000))).

(** [int(d.Minutes())].  Up to 2^17 minutes this is the number of whole
    minutes in [d]; from 2^18 minutes on, a duration a few nanoseconds
    short of a whole minute counts as that minute, the sum of the two
    floats being rounded up to it. *)
Definition whole_minutes (d : Z) : Z := float64.to_int (Minutes d).

(** The most whole minutes a [Duration] holds. *)
Definition max_refills : Z := Z.quot GoInt.max_int Minute.

End GoTime.

(** ** Package [strings] (and [encoding/hex]) on byte strings *)
Module strings.

Definition byte (n : nat) : ascii := ascii_of_nat n.
Definition code (c : ascii) : nat := nat_of_ascii c.

Definition len (s : string) : Z := Z.of_nat (String.length s).

(** [HasPrefix s prefix] *)
Fixpoint HasPrefix (s prefix : string) : bool :=
  match prefix, s with
  | EmptyString, _ => true
  | String _ _, EmptyString => false
  | String p prefix', String c s' => Ascii.eqb c p && HasPrefix s' prefix'
  end.

Fixpoint drop (n : nat) (s : string) : string :=
  match n, s with
  | O, _ => s
  | S _, EmptyString => EmptyString
  | S n', String _ s' => drop n' s'
  end.

Fixpoint take (n : nat) (s : string) : string :=
  match n, s with
  | O, _ => EmptyString
  | S _, EmptyString => EmptyString
  | S n', String c s' => String c (take n' s')
  end.

(** [TrimPrefix s prefix]: [s] without the leading [prefix], or [s]
    itself when it does not start with it. *)
Definition TrimPrefix (s prefix : string) : string :=
  if HasPrefix s prefix then drop (String.length prefix) s else s.

(** [ContainsRune s r] for an ASCII rune [r]: its one-byte encoding
    occurs in [s] (no byte of a longer encoding is below 128). *)
Fixpoint ContainsRune (s : string) (r : ascii) : bool :=
  match s with
  | EmptyString => false
  | String c s' => Ascii.eqb c r || ContainsRune s' r
  end.

(** [Split s sep] for a one-byte separator: the fields between the
    occurrences of [sep]; never empty. *)
Fixpoint Split (s : string) (sep : ascii) : list string :=
  match s with
  | EmptyString => [EmptyString]
  | String c s' =>
      if Ascii.eqb c sep then EmptyString :: Split s' sep
      else match Split s' sep with
           | [] => [String c EmptyString]
           | f :: fs => String c f :: fs
           end
  end.

Definition utf8 (bytes : list nat) : string :=
  string_of_list_ascii (map byte bytes).

(** The UTF-8 encodings of the runes for which [unicode.IsSpace]
    holds: TAB, LF, VT, FF, CR, SPACE, U+0085, U+00A0, U+1680,
    U+2000..U+200A, U+2028, U+2029, U+202F, U+205F and U+3000. *)
Definition space_runes : list (list nat) :=
  [ [9]; [10]; [11]; [12]; [13]; [32];
    [194; 133]; [194; 160]; [225; 154; 128];
    [226; 128; 128]; [226; 128; 129]; [226; 128; 130]; [226; 128; 131];
    [226; 128; 132]; [226; 128; 133]; [226; 128; 134]; [226; 128; 135];
    [226; 128; 136]; [226; 128; 137]; [226; 128; 138];
    [226; 128; 168]; [226; 128; 169]; [226; 128; 175];
    [226; 129; 159]; [227; 128; 128] ]%nat.

(** The rest of [s] after one of [pats], when [s] starts with one. *)
Fixpoint strip_one (pats : list string) (s : string) : option string :=
  match pats with
  | [] => None
  | p :: pats' =>
      if HasPrefix s p then Some (drop (String.length p) s)
      else strip_one pats' s
  end.

Fixpoint strip_all (fuel : nat) (pats : list string) (s : string) : string :=
  match fuel with
  | O => s
  | S fuel' =>
      match strip_one pats s with
      | Some s' => strip_all fuel' pats s'
      | None => s
      end
  end.

Definition TrimLeftSpace (s : string) : string :=
  strip_all (String.length s) (map utf8 space_runes) s.

(** The last rune of a string is a space exactly when the string ends
    with one of the encodings above (each starts with its only
    non-continuation byte), so trimming on the right is trimming the
    reversed encodings off the reversed string. *)
Definition TrimRightSpace (s : string) : string :=
  String.rev
    (strip_all (String.length s) (map (fun bs => utf8 (rev bs)) space_runes)
       (String.rev s)).

(** [TrimSpace s]: [s] without leading and trailing white space. *)
Definition TrimSpace (s : string) : string :=
  TrimRightSpace (TrimLeftSpace s).

Definition lower (c : ascii) : ascii :=
  if (65 <=? code c)%nat && (code c <=? 90)%nat then byte (code c + 32) else c.

Definition upper (c : ascii) : ascii :=
  if (97 <=? code c)%nat && (code c <=? 122)%nat then byte (code c - 32) else c.

Fixpoint map_bytes (f : ascii -> ascii) (s : string) : string :=
  match s with
  | EmptyString => EmptyString
  | String c s' => String (f c) (map_bytes f s')
  end.

(** [ToLower s] on the bytes of [s]: exact for ASCII strings.  On a
    string with non-ASCII runes Go lowers each rune by the Unicode
    tables; the only such runes with an ASCII lower case are U+212A
    (k) and U+0130 (i), so the result of Go and of this model are
    both outside the hexadecimal strings [verifyHMAC] compares it
    with. *)
Definition ToLower (s : string) : string := map_bytes lower s.

Definition hexdigit (n : nat) : ascii :=
  if (n <? 10)%nat then byte (48 + n) else byte (87 + n).

(** [hex.EncodeToString]: two lower-case digits per byte. *)
Fixpoint EncodeToString (src : string) : string :=
  match src with
  | EmptyString => EmptyString
  | String c s' =>
      String (hexdigit (code c / 16)) (String (hexdigit (code c mod 16)) (EncodeToString s'))
  end.

Definition bytes_of (s : string) : list Z :=
  map (fun c => Z.of_nat (code c)) (list_ascii_of_string s).

Definition of_bytes (bs : list Z) : string :=
  string_of_list_ascii (map (fun b => byte (Z.to_nat b)) bs).


Definition nl : string := String (byte 10) EmptyString.
Definition quote : string := String (byte 34) EmptyString.

End strings.

(** ** Packages [crypto/sha256] and [crypto/hmac]

    SHA-256 (FIPS 180-4) and HMAC (RFC 2104) on lists of bytes, with
    32-bit words as [Z] reduced modulo 2^32. *)
Module sha256.

Definition w32 (x : Z) : Z := x mod 2 ^ 32.
Definition add32 (x y : Z) : Z := w32 (x + y).
Definition rotr (n x : Z) : Z :=
  w32 (Z.lor (Z.shiftr x n) (Z.shiftl x (32 - n))).
Definition not32 (x : Z) : Z := Z.lxor x (2 ^ 32 - 1).

Definition Ch (x y z : Z) : Z := Z.lxor (Z.land x y) (Z.land (not32 x) z).
Definition Maj (x y z : Z) : Z :=
  Z.lxor (Z.lxor (Z.land x y) (Z.land x z)) (Z.land y z).
Definition Sigma0 (x : Z) : Z :=
  Z.lxor (Z.lxor (rotr 2 x) (rotr 13 x)) (rotr 22 x).
Definition Sigma1 (x : Z) : Z :=
  Z.lxor (Z.lxor (rotr 6 x) (rotr 11 x)) (rotr 25 x).
Definition sigma0 (x : Z) : Z :=
  Z.lxor (Z.lxor (rotr 7 x) (rotr 18 x)) (Z.shiftr x 3).
Definition sigma1 (x : Z) : Z :=
  Z.lxor (Z.lxor (rotr 17 x) (rotr 19 x)) (Z.shiftr x 10).

(** The round constants are the first 32 bits of the fractional parts
    of the cube roots of the first 64 primes, the initial hash value
    those of the square roots of the first 8. *)
Definition is_prime (n : nat) : bool :=
  forallb (fun d => negb (Nat.eqb (n mod d) 0)) (seq 2 (n - 2)).

Definition primes : list Z := map Z.of_nat (List.filter is_prime (seq 2 310)).

Fixpoint cube_root_bits (bits : nat) (n x : Z) : Z :=
  match bits with
  | O => x
  | S b =>
      let y := x + 2 ^ Z.of_nat b in
      cube_root_bits b n (if y * y * y <=? n then y else x)
  end.

Definition cube_root (n : Z) : Z := cube_root_bits 40 n 0.

Definition K : list Z :=
  Eval vm_compute in map (fun p => w32 (cube_root (p * 2 ^ 96))) primes.

Definition H0 : list Z :=
  Eval vm_compute in map (fun p => w32 (Z.sqrt (p * 2 ^ 64))) (firstn 8 primes).

(** The message schedule, most recent word first. *)
Fixpoint schedule (n : nat) (ws : list Z) : list Z :=
  match n with
  | O => ws
  | S n' =>
      let w := add32 (add32 (sigma1 (nth 1 ws 0)) (nth 6 ws 0))
                     (add32 (sigma0 (nth 14 ws 0)) (nth 15 ws 0)) in
      schedule n' (w :: ws)
  end.

Definition round (st : list Z) (kw : Z * Z) : list Z :=
  match st with
  | [a; b; c; d; e; f; g; h] =>
      let t1 := add32 (add32 (add32 h (Sigma1 e)) (add32 (Ch e f g) (fst kw))) (snd kw) in
      let t2 := add32 (Sigma0 a) (Maj a b c) in
      [add32 t1 t2; a; b; c; add32 d t1; e; f; g]
  | _ => st
  end.

Fixpoint zip_add (xs ys : list Z) : list Z :=
  match xs, ys with
  | x :: xs', y :: ys' => add32 x y :: zip_add xs' ys'
  | _, _ => []
  end.

(** One block of sixteen words. *)
Definition compress (h : list Z) (block : list Z) : list Z :=
  let ws := rev (schedule 48 (rev block)) in
  zip_add h (fold_left round (combine K ws) h).

Fixpoint words (bytes : list Z) : list Z :=
  match bytes with
  | a :: b :: c :: d :: rest => (((a * 256 + b) * 256 + c) * 256 + d) :: words rest
  | _ => []
  end.

Fixpoint blocks (fuel : nat) (h : list Z) (ws : list Z) : list Z :=
  match fuel with
  | O => h
  | S fuel' =>
      match ws with
      | [] => h
      | _ => blocks fuel' (compress h (firstn 16 ws)) (skipn 16 ws)
      end
  end.

Fixpoint be_bytes (n : nat) (x : Z) : list Z :=
  match n with
  | O => []
  | S n' => (be_bytes n' (x / 256) ++ [x mod 256])%list
  end.

Definition pad (msg : list Z) : list Z :=
  let l := Z.of_nat (length msg) in
  let zeros := Z.to_nat ((55 - l) mod 64) in
  (msg ++ [128] ++ repeat 0 zeros ++ be_bytes 8 (8 * l))%list.

Definition Sum256 (msg : list Z) : list Z :=
  let ws := words (pad msg) in
  flat_map (be_bytes 4) (blocks (length ws) H0 ws).

End sha256.

Module hmac.

Definition block_size : nat := 64.

(** [hmac.New(sha256.New, key)], [Write(msg)], [Sum(nil)]. *)
Definition Sum (key msg : list Z) : list Z :=
  let key := if (block_size <? length key)%nat then sha256.Sum256 key else key in
  let key := (key ++ repeat 0 (block_size - length key)%nat)%list in
  let ipad := map (Z.lxor 54) key in
  let opad := map (Z.lxor 92) key in
  sha256.Sum256 (opad ++ sha256.Sum256 (ipad ++ msg))%list.

End hmac.

(** The 32-byte HMAC-SHA256 of [msg] under [key], on byte strings. *)
Definition hmac_sha256 (key msg : string) : string :=
  strings.of_bytes (hmac.Sum (strings.bytes_of key) (strings.bytes_of msg)).

Arguments hmac_sha256 : simpl never.

(** ** Package [regexp]: the fragment [emailRegex] is written in

    Matching is by derivatives, on bytes.  A negated class of ASCII
    characters matches a rune of any width, and every byte of a
    multi-byte rune (as well as a stray byte, which the matcher reads as
    U+FFFD) is outside such a class's exclusions: on bytes, [c+] for
    such a class [c] matches the same strings. *)
Module regexp.

Inductive Regexp : Type :=
| NoMatch                              (* matches nothing *)
| Empty                                (* matches the empty string *)
| Lit (c : ascii)                      (* a literal character *)
| NotIn (cs : list ascii)              (* [^...] *)
| Cat (r1 r2 : Regexp)
| Alt (r1 r2 : Regexp)
| Star (r : Regexp).

(** [r+] *)
Definition Plus (r : Regexp) : Regexp := Cat r (Star r).

Fixpoint mem (c : ascii) (cs : list ascii) : bool :=
  match cs with
  | [] => false
  | c' :: cs' => Ascii.eqb c c' || mem c cs'
  end.

Fixpoint nullable (r : Regexp) : bool :=
  match r with
  | NoMatch | Lit _ | NotIn _ => false
  | Empty | Star _ => true
  | Cat r1 r2 => nullable r1 && nullable r2
  | Alt r1 r2 => nullable r1 || nullable r2
  end.

Fixpoint deriv (c : ascii) (r : Regexp) : Regexp :=
  match r with
  | NoMatch | Empty => NoMatch
  | Lit c' => if Ascii.eqb c c' then Empty else NoMatch
  | NotIn cs => if mem c cs then NoMatch else Empty
  | Cat r1 r2 =>
      if nullable r1 then Alt (Cat (deriv c r1) r2) (deriv c r2)
      else Cat (deriv c r1) r2
  | Alt r1 r2 => Alt (deriv c r1) (deriv c r2)
  | Star r1 => Cat (deriv c r1) (Star r1)
  end.

(** [MatchString] of a pattern anchored by [^] and [$]: the whole
    string is in the language of [r]. *)
Fixpoint MatchString (r : Regexp) (s : string) : bool :=
  match s with
  | EmptyString => nullable r
  | String c s' => MatchString (deriv c r) s'
  end.

(** The language of a pattern. *)
Inductive lang : Regexp -> string -> Prop :=
| lang_empty : lang Empty EmptyString
| lang_lit c : lang (Lit c) (String c EmptyString)
| lang_notin c cs : mem c cs = false -> lang (NotIn cs) (String c EmptyString)
| lang_cat r1 r2 s1 s2 : lang r1 s1 -> lang r2 s2 -> lang (Cat r1 r2) (s1 +:+ s2)
| lang_alt_l r1 r2 s : lang r1 s -> lang (Alt r1 r2) s
| lang_alt_r r1 r2 s : lang r2 s -> lang (Alt r1 r2) s
| lang_star_nil r : lang (Star r) EmptyString
| lang_star_app r s1 s2 : lang r s1 -> lang (Star r) s2 -> lang (Star r) (s1 +:+ s2).

(** [\s]: the class [[\t\n\f\r ]]. *)
Definition perl_space : list ascii :=
  map strings.byte [9; 10; 12; 13; 32]%nat.

End regexp.

(** ** The rate limiter (package-level [buckets] and [Allow]) *)

Record Bucket := mkBucket { tokens : Z; ts : Z }.

Definition bucket_key (site ip : string) : string := site +:+ "|" +:+ ip.

(** [Allow site ip burst refillMins] at the instant [now], on the store
    [buckets]; returns the decision and the store after the call.  The
    mutex makes the whole body one atomic step. *)
Definition Allow (site ip : string) (burst refillMins : Z) (now : Z)
    (buckets : gmap string Bucket) : bool * gmap string Bucket :=
  let key := bucket_key site ip in
  match buckets !! key with
  | None => (true, <[key := mkBucket burst now]> buckets)
  | Some b =>
      (* refill per minute *)
      let refills := GoTime.whole_minutes (GoTime.Sub now (ts b)) in
      let b :=
        if 0 <? refills then
          let t := GoInt.add (tokens b) refills in
          let t := if burst <? t then burst else t in
          mkBucket t now
        else b in
      if tokens b <=? 0 then (false, <[key := b]> buckets)
      else (true, <[key := mkBucket (GoInt.sub (tokens b) 1) (ts b)]> buckets)
  end.

(** The refill count in the words of section 4.2 of the specification:
    the whole units of [refillMins] minutes in the elapsed time, by
    truncated division.  ([Allow] above does not read [refillMins].) *)
Definition refills_as_specified (refillMins : Z) (elapsed : Z) : Z :=
  Z.quot elapsed (refillMins * GoTime.Minute).

(** A sequence of calls, each with the arguments and the clock reading
    it is made with. *)
Record Call := mkCall {
  c_site : string; c_ip : string;
  c_burst : Z; c_refill : Z;
  c_now : Z }.

Definition call_key (c : Call) : string := bucket_key (c_site c) (c_ip c).

Definition step (c : Call) (buckets : gmap string Bucket) : bool * gmap string Bucket :=
  Allow (c_site c) (c_ip c) (c_burst c) (c_refill c) (c_now c) buckets.

(** Runs the calls in order; the result pairs each call's key with its
    decision. *)
Fixpoint run (cs : list Call) (buckets : gmap string Bucket)
    : list (string * bool) * gmap string Bucket :=
  match cs with
  | [] => ([], buckets)
  | c :: cs' =>
      let '(ok, buckets1) := step c buckets in
      let '(oks, buckets2) := run cs' buckets1 in
      ((call_key c, ok) :: oks, buckets2)
  end.

Definition decisions (cs : list Call) (buckets : gmap string Bucket) : list bool :=
  (fst (run cs buckets)).*2.



(** Every bucket of the store holds between 0 and [B] tokens. *)
Definition tokens_within (B : Z) (buckets : gmap string Bucket) : Prop :=
  forall k b, buckets !! k = Some b -> 0 <= tokens b <= B.


(** ** Configuration (the types of [config.go]) *)

Record SmtpCfg := mkSmtpCfg {
  Host : string; Port : Z; User : string; Pass : string; SSL : bool }.

Record SiteCfg := mkSiteCfg {
  Key : string;
  To : string;
  AllowedOrigins : list string;
  SubjectPrefix : string;
  Secret : string;
  SMTP : option SmtpCfg;
  FromAddr : string }.

Record Config := mkConfig {
  RateBurst : Z;
  RateRefillMinutes : Z;
  AllowJSON : bool;
  AllowForm : bool;
  MaxBodyKB : Z;
  ListenAddr : string;
  Sites : gmap string SiteCfg }.

(** [emailRegex = regexp.MustCompile(`^[^@\s]+@[^@\s]+\.[^@\s]+$`)] *)
Definition emailRegex : regexp.Regexp :=
  let atom := regexp.NotIn ("@"%char :: regexp.perl_space) in
  regexp.Cat (regexp.Plus atom)
    (regexp.Cat (regexp.Lit "@")
       (regexp.Cat (regexp.Plus atom)
          (regexp.Cat (regexp.Lit ".") (regexp.Plus atom)))).

(** What the pattern stands for: a byte other than [@] and the white
    space of [\s]; a non-empty run of such bytes; and three runs, the
    local part and the two ends of the domain, around an [@] and a dot. *)
Definition email_byte (c : ascii) : bool :=
  negb (regexp.mem c ("@"%char :: regexp.perl_space)).

Fixpoint all_bytes (f : ascii -> bool) (s : string) : bool :=
  match s with
  | EmptyString => true
  | String c s' => f c && all_bytes f s'
  end.

Definition email_word (s : string) : Prop :=
  s <> "" /\ all_bytes email_byte s = true.

Definition email_shape (e : string) : Prop :=
  exists loc d1 d2 : string,
    email_word loc /\ email_word d1 /\ email_word d2
    /\ e = loc +:+ "@" +:+ d1 +:+ "." +:+ d2.

(** ** The payload and the outbound message *)

Record ContactRequest := mkContactRequest {
  Name : string;
  Email : string;
  Message : string;
  Website : string (* honeypot *) }.

(** The message type of the mail library, with the fields the handler
    fills in. *)
Module email.
Record Email := mkEmail {
  From : string;
  To : list string;
  ReplyTo : list string;
  Subject : string;
  Text : string }.
End email.

(** ** Package [net/http]: requests, header maps, responses *)

Abbreviation Header := (gmap string (list string)).

(** [h.Get(key)]: the first value of [key], or the empty string.  All
    the keys the handler uses are in canonical form already. *)
Definition HeaderGet (h : Header) (key : string) : string :=
  match h !! key with
  | Some (v :: _) => v
  | _ => ""
  end.

Definition HeaderSet (h : Header) (key value : string) : Header :=
  <[key := [value]]> h.

Definition HeaderDel (h : Header) (key : string) : Header := delete key h.

Record Request := mkRequest {
  Method : string;
  URLPath : string;                (* r.URL.Path *)
  RawQuery : string;               (* r.URL.RawQuery *)
  ReqHeader : Header;              (* r.Header *)
  RemoteAddr : string;
  Body : string;                   (* the bytes r.Body delivers ... *)
  BodyFails : bool                 (* ... before it fails, if it does, instead of ending *) }.

Record Response := mkResponse {
  Code : Z;
  RespHeader : Header;
  RespBody : string }.

(** [http.Error(w, error, code)] on a writer whose header map is [h]. *)
Definition httpError (h : Header) (error : string) (code : Z) : Response :=
  let h := HeaderDel h "Content-Length" in
  let h := HeaderSet h "Content-Type" "text/plain; charset=utf-8" in
  let h := HeaderSet h "X-Content-Type-Options" "nosniff" in
  mkResponse code h (error +:+ strings.nl).

(** [io.ReadAll(io.LimitReader(r.Body, n))]: at most [n] bytes; the
    failure of the underlying reader is met only when fewer than [n]
    bytes come before it. *)
Definition ReadAllLimited (r : Request) (n : Z) : option string :=
  if n <=? 0 then Some ""
  else if n <=? strings.len (Body r) then Some (strings.take (Z.to_nat n) (Body r))
  else if BodyFails r then None
  else Some (Body r).

(** [url.Values.Get] *)
Definition FormGet (form : Header) (key : string) : string := HeaderGet form key.

(** Two requests that differ at most in their [Origin] header. *)
Definition same_but_origin (r1 r2 : Request) : Prop :=
  Method r1 = Method r2 /\ URLPath r1 = URLPath r2 /\ RawQuery r1 = RawQuery r2
  /\ RemoteAddr r1 = RemoteAddr r2 /\ Body r1 = Body r2 /\ BodyFails r1 = BodyFails r2
  /\ forall k, k <> "Origin" -> ReqHeader r1 !! k = ReqHeader r2 !! k.

(** ** What the handler calls outside the repository

    The standard library's JSON decoder, form parser and address
    splitter, and the injected mail sender.  [ParseForm] is
    given what the request's [ParseForm] method reads: the method, the
    [Content-Type] header, the raw query and the body. *)
Class Platform := {
  json_Decode : string -> option ContactRequest;     (* json.NewDecoder(body).Decode(&p) *)
  ParseForm : string -> string -> string -> string -> option Header;
  SplitHostPort : string -> string;                  (* the host, empty on error *)
  sendEmailFunc : SiteCfg -> email.Email -> bool     (* true: no error *) }.

Section Handler.

Context {P : Platform}.

(** [clientIP] *)
Definition clientIP (r : Request) : string :=
  let xf := HeaderGet (ReqHeader r) "X-Forwarded-For" in
  if negb (String.eqb xf "") then
    let parts := strings.Split xf ","%char in
    strings.TrimSpace (hd "" parts)
  else SplitHostPort (RemoteAddr r).

(** [verifyHMAC]; [hmac.Equal] is equality of the byte slices. *)
Definition verifyHMAC (body secret hexSig : string) : bool :=
  if String.eqb secret "" || String.eqb hexSig "" then false
  else
    let sum := hmac_sha256 secret body in
    let want := strings.ToLower (strings.EncodeToString sum) in
    let have := strings.ToLower hexSig in
    String.eqb want have.

(** *** The stages of [HandleContact], in the order of the source *)

(** Lines 39-63: preflight, method, site key, site lookup. *)
Definition resolveSite (cfg : Config) (w : Header) (r : Request)
    : Response + (string * SiteCfg) :=
  if String.eqb (Method r) "OPTIONS" then
    let w := HeaderSet w "Access-Control-Allow-Methods" "POST, OPTIONS" in
    let w := HeaderSet w "Access-Control-Allow-Headers" "Content-Type, X-Signature" in
    inl (mkResponse 204 w "")
  else if negb (String.eqb (Method r) "POST") then
    inl (httpError w "method not allowed" 405)
  else
    let siteKey := strings.TrimPrefix (URLPath r) "/v1/contact/" in
    if String.eqb siteKey "" || strings.ContainsRune siteKey "/" then
      inl (httpError w "bad site key" 400)
    else
      match Sites cfg !! siteKey with
      | None => inl (httpError w "unknown site" 404)
      | Some cs => inr (siteKey, cs)
      end.

(** Lines 67-76: CORS for that site (exact match). *)
Fixpoint matchOrigin (origin : string) (allowed : list string) (w : Header) : Header :=
  match allowed with
  | [] => w
  | ao :: allowed' =>
      if String.eqb origin ao then
        let w := HeaderSet w "Access-Control-Allow-Origin" origin in
        HeaderSet w "Vary" "Origin"
      else matchOrigin origin allowed' w
  end.

Definition originPolicy (cs : SiteCfg) (r : Request) (w : Header) : Header :=
  if (0 <? Z.of_nat (length (AllowedOrigins cs))) then
    let origin := HeaderGet (ReqHeader r) "Origin" in
    matchOrigin origin (AllowedOrigins cs) w
  else w.

(** Lines 87-99: the body, read once, up to the ceiling plus one. *)
Definition maxBytes (cfg : Config) : Z := GoInt.mul (MaxBodyKB cfg) 1024.

Definition captureBody (cfg : Config) (w : Header) (r : Request) : Response + string :=
  match ReadAllLimited r (GoInt.add (maxBytes cfg) 1) with
  | None => inl (httpError w "read error" 400)
  | Some body =>
      if maxBytes cfg <? strings.len body then
        inl (httpError w "payload too large" 413)
      else inr body
  end.

(** Lines 102-109: the optional shared-secret check; [true] when the
    request is turned away. *)
Definition unauthorized (cs : SiteCfg) (r : Request) (body : string) : bool :=
  if negb (String.eqb (Secret cs) "") then
    let sig := HeaderGet (ReqHeader r) "X-Signature" in
    negb (verifyHMAC body (Secret cs) sig)
  else false.

(** Lines 114-138: the decoder switch. *)
Definition takesJSON (cfg : Config) (ct : string) : bool :=
  strings.HasPrefix ct "application/json" && AllowJSON cfg.

Definition decodePayload (cfg : Config) (w : Header) (r : Request) (body : string)
    : Response + ContactRequest :=
  let ct := HeaderGet (ReqHeader r) "Content-Type" in
  if takesJSON cfg ct then
    match json_Decode body with
    | None => inl (httpError w "bad json" 400)
    | Some p => inr p
    end
  else if AllowForm cfg then
    match ParseForm (Method r) ct (RawQuery r) body with
    | None => inl (httpError w "bad form" 400)
    | Some form =>
        inr (mkContactRequest (FormGet form "name") (FormGet form "email")
               (FormGet form "message") (FormGet form "website"))
    end
  else inl (httpError w "unsupported content type" 415).

(** Line 141: honeypot and validation; [true] when the submission is
    turned away. *)
Definition invalidSubmission (p : ContactRequest) : bool :=
  negb (String.eqb (Website p) "")
  || String.eqb (Name p) ""
  || negb (regexp.MatchString emailRegex (Email p))
  || String.eqb (strings.TrimSpace (Message p)) "".

(** Lines 148-159: the outbound message. *)
Definition composeEmail (cs : SiteCfg) (p : ContactRequest) (ip : string) : email.Email :=
  let subject := strings.TrimSpace (SubjectPrefix cs +:+ " New contact") in
  let msg :=
    "Site: " +:+ Key cs +:+ strings.nl
    +:+ "From: " +:+ Name p +:+ " <" +:+ Email p +:+ ">" +:+ strings.nl
    +:+ "IP: " +:+ ip +:+ strings.nl +:+ strings.nl
    +:+ Message p +:+ strings.nl in
  email.mkEmail (FromAddr cs) [To cs] [Name p +:+ " <" +:+ Email p +:+ ">"] subject msg.

(** The output of [json.NewEncoder(w).Encode(map[string]any{"ok": true})]. *)
Definition okBody : string :=
  "{" +:+ strings.quote +:+ "ok" +:+ strings.quote +:+ ":true}" +:+ strings.nl.

(** What a call of the handler leaves behind: the response, the bucket
    store, and the message handed to [sendEmailFunc], if any. *)
Record Outcome := mkOutcome {
  response : Response;
  buckets_after : gmap string Bucket;
  handed_off : option email.Email }.

(** What the handler has in hand once a request is admitted: the site,
    the client address, the header map of the response, the store. *)
Record Accepted := mkAccepted {
  ad_site : SiteCfg;
  ad_ip : string;
  ad_w : Header;
  ad_buckets : gmap string Bucket }.

(** [HandleContact(w, r)] with the configuration [cfg], at the clock
    reading [now], on the bucket store [buckets]; [w] is the header map
    of the response writer the handler is given.  Each early [return]
    of the source is an [inl]; the function is cut where the claims
    need to name what it has computed so far. *)

(** Lines 39-84: up to and including the rate limiter. *)
Definition accept (cfg : Config) (now : Z) (buckets : gmap string Bucket)
    (w : Header) (r : Request) : Outcome + Accepted :=
  match resolveSite cfg w r with
  | inl resp => inl (mkOutcome resp buckets None)
  | inr (siteKey, cs) =>
      let w := originPolicy cs r w in
      let ip := clientIP r in
      let '(ok, buckets) :=
        Allow siteKey ip (RateBurst cfg) (RateRefillMinutes cfg) now buckets in
      if negb ok then
        inl (mkOutcome (httpError w "rate limited" 429) buckets None)
      else inr (mkAccepted cs ip w buckets)
  end.

(** Lines 86-109: the body and the signature. *)
Definition authenticate (cfg : Config) (now : Z) (buckets : gmap string Bucket)
    (w : Header) (r : Request) : Outcome + (Accepted * string) :=
  match accept cfg now buckets w r with
  | inl out => inl out
  | inr a =>
      match captureBody cfg (ad_w a) r with
      | inl resp => inl (mkOutcome resp (ad_buckets a) None)
      | inr body =>
          if unauthorized (ad_site a) r body then
            inl (mkOutcome (httpError (ad_w a) "unauthorized" 401) (ad_buckets a) None)
          else inr (a, body)
      end
  end.

(** Lines 111-138: the payload. *)
Definition decode (cfg : Config) (now : Z) (buckets : gmap string Bucket)
    (w : Header) (r : Request) : Outcome + (Accepted * ContactRequest) :=
  match authenticate cfg now buckets w r with
  | inl out => inl out
  | inr (a, body) =>
      match decodePayload cfg (ad_w a) r body with
      | inl resp => inl (mkOutcome resp (ad_buckets a) None)
      | inr p => inr (a, p)
      end
  end.

(** Lines 140-170: validation, composition, hand-off, acknowledgement. *)
Definition deliver (a : Accepted) (p : ContactRequest) : Outcome :=
  if invalidSubmission p then
    mkOutcome (httpError (ad_w a) "invalid submission" 400) (ad_buckets a) None
  else
    let e := composeEmail (ad_site a) p (ad_ip a) in
    if negb (sendEmailFunc (ad_site a) e) then
      mkOutcome (httpError (ad_w a) "failed to send" 500) (ad_buckets a) (Some e)
    else
      let w := HeaderSet (ad_w a) "Content-Type" "application/json" in
      mkOutcome (mkResponse 200 w okBody) (ad_buckets a) (Some e).

Definition HandleContact (cfg : Config) (now : Z) (buckets : gmap string Bucket)
    (w : Header) (r : Request) : Outcome :=
  match decode cfg now buckets w r with
  | inl out => out
  | inr (a, p) => deliver a p
  end.

(** Serves the requests in order, each at its clock reading and with a
    fresh response writer, on one bucket store; the status codes. *)
Fixpoint serve (cfg : Config) (reqs : list (Z * Request))
    (buckets : gmap string Bucket) : list Z :=
  match reqs with
  | [] => []
  | (now, r) :: reqs' =>
      let out := HandleContact cfg now buckets ∅ r in
      Code (response out) :: serve cfg reqs' (buckets_after out)
  end.

(** Two results of a stage that agree up to the header map of the
    response. *)
Definition alike {A : Type} (x y : Response + A) : Prop :=
  match x, y with
  | inl rx, inl ry => Code rx = Code ry /\ RespBody rx = RespBody ry
  | inr ax, inr ay => ax = ay
  | _, _ => False
  end.

(** What of an outcome does not depend on the response's header map. *)
Definition verdict (out : Outcome) : Z * string * gmap string Bucket * option email.Email :=
  (Code (response out), RespBody (response out), buckets_after out, handed_off out).

End Handler.

(** ** A platform to run the handler on

    Small executable versions of the library functions, enough for the
    payloads of the package's tests: a decoder for JSON objects whose
    members are strings (with the two-character escapes), the query
    parser of [net/url] with [ParseForm]'s merging of body and query, a
    splitter of [host:port], and a sender that succeeds for a site with
    SMTP settings. *)
Module reference.

Import strings.

Definition isb (c : ascii) (n : nat) : bool := Nat.eqb (code c) n.

Definition hexval (c : ascii) : option nat :=
  let n := code c in
  if (48 <=? n)%nat && (n <=? 57)%nat then Some (n - 48)%nat
  else if (97 <=? n)%nat && (n <=? 102)%nat then Some (n - 87)%nat
  else if (65 <=? n)%nat && (n <=? 70)%nat then Some (n - 55)%nat
  else None.

(** [url.QueryUnescape] *)
Fixpoint QueryUnescape (s : string) : option string :=
  match s with
  | EmptyString => Some EmptyString
  | String c rest =>
      if isb c 37 then
        match rest with
        | String h (String l rest') =>
            match hexval h, hexval l with
            | Some a, Some b => String (byte (16 * a + b)) <$> QueryUnescape rest'
            | _, _ => None
            end
        | _ => None
        end
      else if isb c 43 then String (byte 32) <$> QueryUnescape rest
      else String c <$> QueryUnescape rest
  end.

(** [strings.Cut s sep]: around the first [sep]. *)
Fixpoint Cut (s : string) (sep : ascii) : string * string :=
  match s with
  | EmptyString => (EmptyString, EmptyString)
  | String c s' =>
      if Ascii.eqb c sep then (EmptyString, s')
      else let '(k, v) := Cut s' sep in (String c k, v)
  end.

Definition add_pair (acc : option Header) (piece : string) : option Header :=
  match acc with
  | None => None
  | Some m =>
      if String.eqb piece "" then Some m
      else if ContainsRune piece ";" then None
      else
        let '(k, v) := Cut piece "=" in
        match QueryUnescape k, QueryUnescape v with
        | Some k, Some v => Some (<[k := (default [] (m !! k) ++ [v])%list]> m)
        | _, _ => None
        end
  end.

(** [url.ParseQuery], appending to the values in [m]. *)
Definition ParseQueryInto (m : Header) (query : string) : option Header :=
  fold_left add_pair (Split query "&") (Some m).

Definition media_type (ct : string) : string :=
  ToLower (TrimSpace (hd "" (Split ct ";"))).

Definition ParseForm (method ct rawQuery body : string) : option Header :=
  let hasBody :=
    String.eqb method "POST" || String.eqb method "PUT" || String.eqb method "PATCH" in
  let post :=
    if hasBody && String.eqb (media_type ct) "application/x-www-form-urlencoded"
    then ParseQueryInto ∅ body else Some ∅ in
  match post with
  | None => None
  | Some m => ParseQueryInto m rawQuery
  end.

Fixpoint skip_ws (s : string) : string :=
  match s with
  | EmptyString => EmptyString
  | String c s' =>
      if isb c 32 || isb c 9 || isb c 10 || isb c 13 then skip_ws s' else s
  end.

Definition escaped (c : ascii) : option ascii :=
  if isb c 34 || isb c 92 || isb c 47 then Some c
  else if isb c 110 then Some (byte 10)
  else if isb c 116 then Some (byte 9)
  else if isb c 114 then Some (byte 13)
  else if isb c 98 then Some (byte 8)
  else if isb c 102 then Some (byte 12)
  else None.

(** A string literal after its opening quote: the value and the rest
    of the input after the closing quote. *)
Fixpoint string_lit (s : string) : option (string * string) :=
  match s with
  | EmptyString => None
  | String c s' =>
      if isb c 34 then Some (EmptyString, s')
      else if isb c 92 then
        match s' with
        | String e s'' =>
            match escaped e, string_lit s'' with
            | Some ch, Some (v, rest) => Some (String ch v, rest)
            | _, _ => None
            end
        | EmptyString => None
        end
      else if (code c <? 32)%nat then None
      else
        match string_lit s' with
        | Some (v, rest) => Some (String c v, rest)
        | None => None
        end
  end.

Definition set_field (p : ContactRequest) (k v : string) : ContactRequest :=
  let k := ToLower k in
  if String.eqb k "name" then mkContactRequest v (Email p) (Message p) (Website p)
  else if String.eqb k "email" then mkContactRequest (Name p) v (Message p) (Website p)
  else if String.eqb k "message" then mkContactRequest (Name p) (Email p) v (Website p)
  else if String.eqb k "website" then mkContactRequest (Name p) (Email p) (Message p) v
  else p.

(** The members of an object, from the opening quote of a key on. *)
Fixpoint members (fuel : nat) (p : ContactRequest) (s : string) : option ContactRequest :=
  match fuel with
  | O => None
  | S fuel' =>
      match skip_ws s with
      | String q s1 =>
          if negb (isb q 34) then None else
          match string_lit s1 with
          | Some (k, s2) =>
              match skip_ws s2 with
              | String colon s3 =>
                  if negb (isb colon 58) then None else
                  match skip_ws s3 with
                  | String q' s4 =>
                      if negb (isb q' 34) then None else
                      match string_lit s4 with
                      | Some (v, s5) =>
                          let p' := set_field p k v in
                          match skip_ws s5 with
                          | String d s6 =>
                              if isb d 44 then members fuel' p' s6
                              else if isb d 125 then Some p'
                              else None
                          | EmptyString => None
                          end
                      | None => None
                      end
                  | EmptyString => None
                  end
              | EmptyString => None
              end
          | None => None
          end
      | EmptyString => None
      end
  end.

Definition json_Decode (body : string) : option ContactRequest :=
  let p0 := mkContactRequest "" "" "" "" in
  match skip_ws body with
  | String b s1 =>
      if negb (isb b 123) then None else
      match skip_ws s1 with
      | String e _ => if isb e 125 then Some p0 else members (String.length body) p0 s1
      | EmptyString => None
      end
  | EmptyString => None
  end.

(** The text before the last colon, without the brackets of an IPv6
    literal; empty when there is no colon. *)
Fixpoint host_of (s : string) : option string :=
  match s with
  | EmptyString => None
  | String c s' =>
      match host_of s' with
      | Some h => Some (String c h)
      | None => if isb c 58 then Some EmptyString else None
      end
  end.

Definition SplitHostPort (hostport : string) : string :=
  match host_of hostport with
  | Some h =>
      if HasPrefix h "[" then String.rev (drop 1 (String.rev (drop 1 h))) else h
  | None => ""
  end.

Definition sendEmail (cs : SiteCfg) (e : email.Email) : bool :=
  match SMTP cs with Some _ => true | None => false end.

(** Writes a payload with apostrophes for the double quotes. *)
Definition q (s : string) : string :=
  map_bytes (fun c => if isb c 39 then byte 34 else c) s.

#[export] Instance platform : Platform :=
  Build_Platform json_Decode ParseForm SplitHostPort sendEmail.

(** The configuration of the package's tests, with burst 1. *)
Definition acme : SiteCfg :=
  mkSiteCfg "acme" "ops@example.com" [] "[Contact]" ""
    (Some (mkSmtpCfg "smtp.example.com" 587 "user" "pass" false))
    "noreply@example.com".

Definition config (sites : list SiteCfg) : Config :=
  mkConfig 1 10 true true 1024 ":0"
    (list_to_map (map (fun cs => (Key cs, cs)) sites)).

Definition post (path : string) (headers : list (string * string)) (body : string)
    : Request :=
  mkRequest "POST" path ""
    (list_to_map (map (fun kv => (kv.1, [kv.2])) headers))
    "192.0.2.1:1234" body false.

Definition alice_json : string :=
  q "{'name':'Alice','email':'alice@example.com','message':'Hello there'}".

Definition alice_form : string :=
  "name=Alice&email=alice%40example.com&message=Hello+there".

End reference.

(** ** Further definitions: counting admissions, and what surrounds the handler *)


(** The keys of the calls. *)
Definition keys_of (cs : list Call) : gset string :=
  list_to_set (call_key <$> cs).

(** The request [r] with its [X-Forwarded-For] header set to [xf]. *)
Definition with_forwarded_for (r : Request) (xf : string) : Request :=
  mkRequest (Method r) (URLPath r) (RawQuery r)
    (HeaderSet (ReqHeader r) "X-Forwarded-For" xf)
    (RemoteAddr r) (Body r) (BodyFails r).

(** A string of [n] characters [1]. *)
Fixpoint ones (n : nat) : string :=
  match n with
  | O => EmptyString
  | S n' => String "1" (ones n')
  end.

(** How often the byte [c] occurs in [s]. *)
Fixpoint count_byte (c : ascii) (s : string) : nat :=
  match s with
  | EmptyString => O
  | String c' s' => ((if Ascii.eqb c' c then 1 else 0) + count_byte c s')%nat
  end.


(** ** [cmd/api/main.go]: the response writer of the logging middleware

    [loggingResponseWriter] embeds the writer of the server and records
    the status and the number of bytes.  The embedded writer is
    represented by the calls made on it. *)
Module logging.

Inductive call : Type :=
| CallWriteHeader (status : Z)
| CallWrite (p : string).

Record loggingResponseWriter := mkWriter {
  embedded : list call;            (* the calls made on ResponseWriter, in order *)
  status : Z;
  length : Z;
  wrote : bool }.

(** [&loggingResponseWriter{ResponseWriter: w, status: http.StatusOK}] *)
Definition fresh : loggingResponseWriter := mkWriter [] 200 0 false.

Definition WriteHeader (lrw : loggingResponseWriter) (st : Z) : loggingResponseWriter :=
  let lrw :=
    if negb (wrote lrw) then
      mkWriter (embedded lrw ++ [CallWriteHeader st])%list (status lrw) (length lrw) true
    else lrw in
  mkWriter (embedded lrw) st (length lrw) (wrote lrw).

(** [Write(p)]; [n] is the count the embedded writer's [Write] returns. *)
Definition Write (lrw : loggingResponseWriter) (p : string) (n : Z)
    : loggingResponseWriter :=
  let lrw := if negb (wrote lrw) then WriteHeader lrw 200 else lrw in
  mkWriter (embedded lrw ++ [CallWrite p])%list (status lrw)
    (GoInt.add (length lrw) n) (wrote lrw).

(** What a handler does with the writer. *)
Inductive op : Type :=
| OpWriteHeader (status : Z)
| OpWrite (p : string) (n : Z).

Definition apply (lrw : loggingResponseWriter) (o : op) : loggingResponseWriter :=
  match o with
  | OpWriteHeader st => WriteHeader lrw st
  | OpWrite p n => Write lrw p n
  end.

Definition run (ops : list op) : loggingResponseWriter := fold_left apply ops fresh.

(** The writes among the operations, as calls. *)
Fixpoint writes (ops : list op) : list call :=
  match ops with
  | [] => []
  | OpWriteHeader _ :: ops' => writes ops'
  | OpWrite p _ :: ops' => CallWrite p :: writes ops'
  end.

(** The status the last [WriteHeader] gave, [d] if there is none. *)
Fixpoint last_header (d : Z) (ops : list op) : Z :=
  match ops with
  | [] => d
  | OpWriteHeader st :: ops' => last_header st ops'
  | OpWrite _ _ :: ops' => last_header d ops'
  end.

Fixpoint written (ops : list op) : Z :=
  match ops with
  | [] => 0
  | OpWriteHeader _ :: ops' => written ops'
  | OpWrite _ n :: ops' => n + written ops'
  end.

End logging.

(** ** Package [strconv] *)
Module strconv.

Definition digit (c : ascii) : option Z :=
  let n := strings.code c in
  if (48 <=? n)%nat && (n <=? 57)%nat then Some (Z.of_nat n - 48) else None.

Fixpoint digits (s : string) (acc : Z) : option Z :=
  match s with
  | EmptyString => Some acc
  | String c s' =>
      match digit c with
      | Some d => digits s' (10 * acc + d)
      | None => None
      end
  end.

(** [Atoi]: an optional sign and decimal digits, within the 64-bit
    range; [None] for the syntax and range errors. *)
Definition Atoi (s : string) : option Z :=
  let '(neg, body) :=
    match s with
    | String c s' =>
        if Ascii.eqb c "-" then (true, s')
        else if Ascii.eqb c "+" then (false, s')
        else (false, s)
    | EmptyString => (false, EmptyString)
    end in
  if String.eqb body "" then None
  else
    match digits body 0 with
    | None => None
    | Some n =>
        let v := if neg then - n else n in
        if (GoInt.min_int <=? v) && (v <=? GoInt.max_int) then Some v else None
    end.

End strconv.

(** ** Package [env]

    The environment is a map from names to values; [os.Getenv] gives
    the empty string for a name that is not set.  [log.Fatalf] ends the
    process: the functions return the reason instead. *)
Inductive Fatal : Type :=
| MissingEnv (k : string)                (* missing env k *)
| MustBeInt (k : string)                 (* env k must be int *)
| MustBeBool (k : string)                (* env k must be boolean *)
| SitesRequired                          (* SITES is required *)
| MissingTo (uc key : string).           (* missing uc_TO for site key *)

Module env.

Definition Getenv (e : gmap string string) (k : string) : string :=
  default "" (e !! k).

Definition MustEnv (e : gmap string string) (k : string) : Fatal + string :=
  let v := Getenv e k in
  if String.eqb v "" then inl (MissingEnv k) else inr v.

Definition MustEnvInt (e : gmap string string) (k : string) : Fatal + Z :=
  let v := Getenv e k in
  if String.eqb v "" then inl (MissingEnv k)
  else match strconv.Atoi v with
       | None => inl (MustBeInt k)
       | Some n => inr n
       end.

Definition Env (e : gmap string string) (k d : string) : string :=
  let v := Getenv e k in
  if String.eqb v "" then d else v.

Definition EnvInt (e : gmap string string) (k : string) (d : Z) : Fatal + Z :=
  let v := Getenv e k in
  if String.eqb v "" then inr d
  else match strconv.Atoi v with
       | None => inl (MustBeInt k)
       | Some n => inr n
       end.

(** [EnvBool].  The lower-casing is on bytes, as in [strings.ToLower]
    above: no rune outside ASCII has a lower case among the letters of
    the ten spellings, so the outcome is that of the code. *)
Definition EnvBool (e : gmap string string) (k : string) (d : bool) : Fatal + bool :=
  let v := Getenv e k in
  if String.eqb v "" then inr d
  else
    let l := strings.ToLower v in
    if String.eqb l "1" || String.eqb l "t" || String.eqb l "true"
       || String.eqb l "y" || String.eqb l "yes" then inr true
    else if String.eqb l "0" || String.eqb l "f" || String.eqb l "false"
            || String.eqb l "n" || String.eqb l "no" then inr false
    else inl (MustBeBool k).

Definition between (lo hi : nat) (c : ascii) : bool :=
  (lo <=? strings.code c)%nat && (strings.code c <=? hi)%nat.

(** The width of the rune at the head of [s], as [range] over a string
    decodes it: the length of a well-formed UTF-8 encoding (no overlong
    form, no surrogate, nothing above U+10FFFF), and 1 for a byte that
    starts none. *)
Definition rune_width (s : string) : nat :=
  match s with
  | EmptyString => 0
  | String c0 s1 =>
      let two :=
        match s1 with
        | String c1 _ => between 128 191 c1
        | _ => false
        end in
      let three lo hi :=
        match s1 with
        | String c1 (String c2 _) => between lo hi c1 && between 128 191 c2
        | _ => false
        end in
      let four lo hi :=
        match s1 with
        | String c1 (String c2 (String c3 _)) =>
            between lo hi c1 && between 128 191 c2 && between 128 191 c3
        | _ => false
        end in
      if between 0 127 c0 then 1
      else if between 194 223 c0 then (if two then 2 else 1)
      else if between 224 224 c0 then (if three 160 191 then 3 else 1)
      else if between 225 236 c0 || between 238 239 c0 then
        (if three 128 191 then 3 else 1)
      else if between 237 237 c0 then (if three 128 159 then 3 else 1)
      else if between 240 240 c0 then (if four 144 191 then 4 else 1)
      else if between 241 243 c0 then (if four 128 191 then 4 else 1)
      else if between 244 244 c0 then (if four 128 143 then 4 else 1)
      else 1
  end%nat.

(** What [ToEnvKey] writes for an ASCII rune: its upper case when that
    is a letter or a digit, an underscore otherwise. *)
Definition key_char (c : ascii) : ascii :=
  let u := strings.upper c in
  if between 65 90 u || between 48 57 u then u else "_"%char.

(** [ToEnvKey]: one character for every rune of [strings.ToUpper(s)].
    A rune outside ASCII gives an underscore, its upper case being
    outside ASCII too, except for U+0131 and U+017F, whose upper cases
    are [I] and [S]; so does every byte that starts no well-formed
    encoding. *)
Fixpoint ToEnvKey_from (fuel : nat) (s : string) : string :=
  match fuel with
  | O => EmptyString
  | S fuel' =>
      match s with
      | EmptyString => EmptyString
      | String c rest =>
          if between 0 127 c then String (key_char c) (ToEnvKey_from fuel' rest)
          else if strings.HasPrefix s (strings.utf8 [196; 177]%nat) then
            String "I" (ToEnvKey_from fuel' (strings.drop 2 s))
          else if strings.HasPrefix s (strings.utf8 [197; 191]%nat) then
            String "S" (ToEnvKey_from fuel' (strings.drop 2 s))
          else String "_" (ToEnvKey_from fuel' (strings.drop (rune_width s) s))
      end
  end.

Definition ToEnvKey (s : string) : string := ToEnvKey_from (String.length s) s.

(** A letter of an environment key. *)
Definition key_byte (c : ascii) : bool :=
  between 65 90 c || between 48 57 c || Ascii.eqb c "_".

End env.

(** ** [internal/config.go]: the configuration from the environment *)

(** [splitString] *)
Definition splitString (s : string) : list string :=
  if String.eqb (strings.TrimSpace s) "" then []
  else
    List.filter (fun p => negb (String.eqb p ""))
      (map strings.TrimSpace (strings.Split s ",")).

(** Sequencing of steps that may end the process. *)
Definition fatal_bind {A B : Type} (x : Fatal + A) (k : A -> Fatal + B) : Fatal + B :=
  match x with
  | inl f => inl f
  | inr a => k a
  end.

Notation "'do' x <- c ; k" := (fatal_bind c (fun x => k))
  (at level 10, x name, c at level 100, k at level 200).

Definition loadGlobalSMTP (e : gmap string string) : Fatal + SmtpCfg :=
  do host <- env.MustEnv e "SMTP_HOST" ;
  do port <- env.MustEnvInt e "SMTP_PORT" ;
  do user <- env.MustEnv e "SMTP_USER" ;
  do pass <- env.MustEnv e "SMTP_PASS" ;
  do ssl <- env.EnvBool e "SMTP_SSL" false ;
  inr (mkSmtpCfg host port user pass ssl).

(** One turn of the loop of [loadSitesFromEnv]: the site [key]. *)
Definition loadSite (e : gmap string string) (globalSMTP : SmtpCfg)
    (globalSubjectPrefix : string) (key : string) : Fatal + SiteCfg :=
  let uc := env.ToEnvKey key in
  let to := env.Getenv e (uc +:+ "_TO") in
  if String.eqb (strings.TrimSpace to) "" then inl (MissingTo uc key)
  else
    let allowed := splitString (env.Getenv e (uc +:+ "_ALLOWED_ORIGINS")) in
    let prefix := env.Env e (uc +:+ "_SUBJECT_PREFIX") globalSubjectPrefix in
    let secret := env.Getenv e (uc +:+ "_SECRET") in
    do siteSMTP <-
      (let v := env.Getenv e (uc +:+ "_SMTP_HOST") in
       if negb (String.eqb v "") then
         do port <- env.EnvInt e (uc +:+ "_SMTP_PORT") (Port globalSMTP) ;
         let user := env.Env e (uc +:+ "_SMTP_USER") (User globalSMTP) in
         let pass := env.Env e (uc +:+ "_SMTP_PASS") (Pass globalSMTP) in
         do ssl <- env.EnvBool e (uc +:+ "_SMTP_SSL") (SSL globalSMTP) ;
         inr (mkSmtpCfg v port user pass ssl)
       else
         inr (mkSmtpCfg (Host globalSMTP) (Port globalSMTP) (User globalSMTP)
                (Pass globalSMTP) (SSL globalSMTP))) ;
    let fromAddr := env.Env e "FROM_ADDR" (User globalSMTP) in
    let fromAddr :=
      let v := env.Getenv e (uc +:+ "_FROM_ADDR") in
      if negb (String.eqb (strings.TrimSpace v) "") then v else fromAddr in
    inr (mkSiteCfg key to allowed prefix secret (Some siteSMTP) fromAddr).

Fixpoint loadSites (e : gmap string string) (globalSMTP : SmtpCfg)
    (globalSubjectPrefix : string) (keys : list string)
    (siteByKey : gmap string SiteCfg) : Fatal + gmap string SiteCfg :=
  match keys with
  | [] => inr siteByKey
  | key :: keys' =>
      if String.eqb key "" then
        loadSites e globalSMTP globalSubjectPrefix keys' siteByKey
      else
        do cs <- loadSite e globalSMTP globalSubjectPrefix key ;
        loadSites e globalSMTP globalSubjectPrefix keys' (<[key := cs]> siteByKey)
  end.

Definition loadSitesFromEnv (e : gmap string string) (globalSMTP : SmtpCfg)
    (globalSubjectPrefix : string) : Fatal + gmap string SiteCfg :=
  let raw := env.Getenv e "SITES" in
  if String.eqb (strings.TrimSpace raw) "" then inl SitesRequired
  else loadSites e globalSMTP globalSubjectPrefix (splitString raw) ∅.

(** [GetConfig], on its first call. *)
Definition GetConfig (e : gmap string string) : Fatal + Config :=
  do globalSMTP <- loadGlobalSMTP e ;
  let globalSubjectPrefix := env.Env e "SUBJECT_PREFIX" "[Contact]" in
  do burst <- env.EnvInt e "RATE_LIMIT_BURST" 3 ;
  do refill <- env.EnvInt e "RATE_LIMIT_REFILL_MINUTES" 1 ;
  do allowJSON <- env.EnvBool e "ALLOW_JSON" true ;
  do allowForm <- env.EnvBool e "ALLOW_FORM" true ;
  do maxBody <- env.EnvInt e "MAX_BODY_KB" 1024 ;
  let listen := env.Env e "LISTEN_ADDR" ":3000" in
  do sites <- loadSitesFromEnv e globalSMTP globalSubjectPrefix ;
  inr (mkConfig burst refill allowJSON allowForm maxBody listen sites).


(** An environment for two sites whose keys give one name. *)
Definition example_env : gmap string string :=
  list_to_map
    [("SMTP_HOST", "smtp.example.com"); ("SMTP_PORT", "587");
     ("SMTP_USER", "user"); ("SMTP_PASS", "pass");
     ("SITES", "my-site, my_site");
     ("MY_SITE_TO", "ops@example.com");
     ("MY_SITE_ALLOWED_ORIGINS", "https://a.example, https://b.example")].

Definition example_config : Config :=
  match GetConfig example_env with
  | inr cfg => cfg
  | inl _ => mkConfig 0 0 false false 0 "" ∅
  end.

(* ================================================================== *)
(** * Part II: properties                                              *)
(* ================================================================== *)

Ltac Zify.zify_post_hook ::= Z.to_euclidean_division_equations.

(** Closes a goal of 64-bit range arithmetic. *)
Ltac int_range :=
  unfold GoInt.in_range, GoInt.wrap, GoInt.min_int, GoInt.max_int in *; lia.

(** ** Integers and the clock *)

Lemma wrap_id z : GoInt.in_range z -> GoInt.wrap z = z.
Proof.
  int_range.
Qed.

Lemma wrap_in_range z : GoInt.in_range (GoInt.wrap z).
Proof.
  int_range.
Qed.

Lemma Sub_le_max t u : GoTime.Sub t u <= GoInt.max_int.
Proof.
  unfold GoTime.Sub, GoInt.max_int, GoInt.min_int.
  repeat case_match; lia.
Qed.

Lemma Sub_ge_min t u : GoInt.min_int <= GoTime.Sub t u.
Proof.
  unfold GoTime.Sub, GoInt.max_int, GoInt.min_int.
  repeat case_match; lia.
Qed.

(** ** Rounding and the count of minutes *)

Section Float64Facts.
Import float64 GoTime.

Lemma one_pos : 0 < one.
Proof. unfold one. apply Z.pow_pos_nonneg; lia. Qed.

Lemma nearest_even_le n d k : 0 < d -> n <= k * d -> nearest_even n d <= k.
Proof.
  intros Hd Hn. unfold nearest_even.
  assert (n / d <= k) by (apply Z.div_le_upper_bound; lia).
  assert (n mod d = 0 \/ n / d < k) as Hc.
  { destruct (Z.eq_dec (n mod d) 0); [left; assumption|]. right.
    pose proof (Z.div_mod n d ltac:(lia)). pose proof (Z.mod_pos_bound n d Hd). nia. }
  pose proof (Z.mod_pos_bound n d Hd).
  repeat match goal with |- context [if ?b then _ else _] => destruct b eqn:? end; lia.
Qed.

Lemma nearest_even_ge n d k : 0 < d -> k * d <= n -> k <= nearest_even n d.
Proof.
  intros Hd Hn. unfold nearest_even.
  assert (k <= n / d) by (apply Z.div_le_lower_bound; lia).
  repeat match goal with |- context [if ?b then _ else _] => destruct b eqn:? end; lia.
Qed.

Lemma pow2_pos t : 0 <= t -> 0 < 2 ^ t.
Proof. intros. apply Z.pow_pos_nonneg; lia. Qed.

(** The shift of [round_pos]: zero, or the place of the leading bit
    less 52. *)
Lemma shift_cases n d :
  0 <= n -> 0 < d ->
  let X := n * one / d in
  let sh := Z.max 0 (Z.log2 X - 52) in
  0 <= sh /\ (sh = 0 \/ (0 < sh /\ 2 ^ (sh + 52) <= X)).
Proof.
  intros Hn Hd X sh. split; [lia|].
  destruct (Z.le_gt_cases (Z.log2 X - 52) 0) as [H|H]; [left; lia|right].
  split; [lia|]. replace (sh + 52) with (Z.log2 X) by lia.
  apply Z.log2_spec. destruct (Z.le_gt_cases X 0) as [H0|H0]; [|lia].
  rewrite (Z.log2_nonpos X H0) in H. lia.
Qed.

(** A value [a * 2^t] with [a] below 2^53 is a [float64]; rounding
    does not cross it. *)
Lemma round_pos_le n d a t :
  0 <= n -> 0 < d -> 0 <= a < 2 ^ 53 -> 0 <= t ->
  n * one <= a * 2 ^ t * d -> round_pos n d <= a * 2 ^ t.
Proof.
  intros Hn Hd Ha Ht H. unfold round_pos.
  destruct (shift_cases n d Hn Hd) as [Hsh [Hz|[Hp HX]]]; cbv zeta in *.
  - rewrite Hz. change (2 ^ 0) with 1. rewrite !Z.mul_1_r.
    apply nearest_even_le; [lia|exact H].
  - set (sh := Z.max 0 (Z.log2 (n * one / d) - 52)) in *.
    set (X := n * one / d) in *.
    assert (X <= a * 2 ^ t) as HXa.
    { subst X. apply Z.div_le_upper_bound; lia. }
    assert (sh <= t) as Hle.
    { destruct (Z.le_gt_cases sh t) as [?|Hgt]; [assumption|exfalso].
      assert (2 ^ t * 2 ^ 53 <= 2 ^ (sh + 52)).
      { rewrite <- Z.pow_add_r by lia. apply Z.pow_le_mono_r; lia. }
      pose proof (pow2_pos t Ht). nia. }
    pose proof (pow2_pos sh ltac:(lia)) as Hs.
    replace t with ((t - sh) + sh) in * by lia.
    rewrite Z.pow_add_r in * by lia.
    rewrite Z.mul_assoc.
    apply Z.mul_le_mono_nonneg_r; [lia|].
    apply nearest_even_le; [nia|]. lia.
Qed.

Lemma nearest_even_nonneg n d : 0 <= n -> 0 < d -> 0 <= nearest_even n d.
Proof. intros. apply (nearest_even_ge n d 0); lia. Qed.

Lemma round_pos_ge n d a t :
  0 <= n -> 0 < d -> 0 <= a < 2 ^ 53 -> 0 <= t ->
  a * 2 ^ t * d <= n * one -> a * 2 ^ t <= round_pos n d.
Proof.
  intros Hn Hd Ha Ht H. unfold round_pos.
  destruct (shift_cases n d Hn Hd) as [Hsh [Hz|[Hp HX]]]; cbv zeta in *.
  - rewrite Hz. change (2 ^ 0) with 1. rewrite !Z.mul_1_r.
    apply nearest_even_ge; [lia|exact H].
  - set (sh := Z.max 0 (Z.log2 (n * one / d) - 52)) in *.
    set (X := n * one / d) in *.
    pose proof (pow2_pos sh ltac:(lia)) as Hs.
    destruct (Z.le_gt_cases sh t) as [Hle|Hgt].
    + replace t with ((t - sh) + sh) in * by lia.
      rewrite Z.pow_add_r in * by lia.
      rewrite Z.mul_assoc.
      apply Z.mul_le_mono_nonneg_r; [lia|].
      apply nearest_even_ge; [nia|]. lia.
    + assert (2 ^ 52 <= nearest_even (n * one) (d * 2 ^ sh)) as Hne.
      { apply nearest_even_ge; [nia|].
        pose proof (Z.mul_div_le (n * one) d Hd).
        rewrite Z.pow_add_r in HX by lia. nia. }
      assert (a * 2 ^ t <= 2 ^ 52 * 2 ^ sh); [|nia].
      assert (2 ^ t * 2 ^ 53 <= 2 ^ 52 * 2 ^ sh).
      { rewrite <- !Z.pow_add_r by lia. apply Z.pow_le_mono_r; lia. }
      pose proof (pow2_pos t Ht). nia.
Qed.

Lemma round_opp n d : round (- n) d = - round n d.
Proof. unfold round. rewrite Z.sgn_opp, Z.abs_opp. lia. Qed.

Lemma round_nonneg n d : 0 <= n -> round n d = round_pos n d \/ (n = 0 /\ round n d = 0).
Proof.
  intros Hn. unfold round. destruct (Z.eq_dec n 0) as [->|Hne]; [right; split; reflexivity|].
  left. rewrite Z.sgn_pos, Z.abs_eq by lia. lia.
Qed.

Lemma round_pos_zero d : 0 < d -> round_pos 0 d = 0.
Proof.
  intros Hd.
  pose proof (round_pos_le 0 d 0 0 ltac:(lia) Hd ltac:(lia) ltac:(lia) ltac:(lia)).
  pose proof (round_pos_ge 0 d 0 0 ltac:(lia) Hd ltac:(lia) ltac:(lia) ltac:(lia)).
  lia.
Qed.

Lemma round_pos_eq n d : 0 <= n -> 0 < d -> round n d = round_pos n d.
Proof.
  intros Hn Hd. destruct (round_nonneg n d Hn) as [H|[-> H]]; [exact H|].
  rewrite H. symmetry. apply round_pos_zero. exact Hd.
Qed.

Lemma round_le n d a t :
  0 <= n -> 0 < d -> 0 <= a < 2 ^ 53 -> 0 <= t ->
  n * one <= a * 2 ^ t * d -> round n d <= a * 2 ^ t.
Proof. intros. rewrite round_pos_eq by assumption. apply round_pos_le; assumption. Qed.

Lemma round_ge n d a t :
  0 <= n -> 0 < d -> 0 <= a < 2 ^ 53 -> 0 <= t ->
  a * 2 ^ t * d <= n * one -> a * 2 ^ t <= round n d.
Proof. intros. rewrite round_pos_eq by assumption. apply round_pos_ge; assumption. Qed.

(** Integers below 2^53 are [float64] values. *)
Lemma of_int_exact i : - 2 ^ 53 < i < 2 ^ 53 -> of_int i = i * one.
Proof.
  assert (forall j, 0 <= j < 2 ^ 53 -> of_int j = j * one) as Hpos.
  { intros j Hj. unfold of_int.
    pose proof (round_le j 1 j 1074 ltac:(lia) ltac:(lia) Hj ltac:(lia)) as Hu.
    pose proof (round_ge j 1 j 1074 ltac:(lia) ltac:(lia) Hj ltac:(lia)) as Hl.
    fold one in Hu, Hl. lia. }
  intros Hi. destruct (Z.le_gt_cases 0 i) as [H|H]; [apply Hpos; lia|].
  replace i with (- (- i)) by lia. unfold of_int. rewrite round_opp.
  fold (of_int (- i)). rewrite Hpos by lia. lia.
Qed.

Lemma one_split k : 0 <= k <= 1074 -> one = 2 ^ k * 2 ^ (1074 - k).
Proof. intros. unfold one. rewrite <- Z.pow_add_r by lia. f_equal. lia. Qed.

(** The fraction of a minute, as [Minutes] computes it, does not
    exceed a [float64] that bounds the exact quotient. *)
Lemma fraction_le nsec a t :
  0 <= nsec -> 0 <= a < 2 ^ 53 -> 0 <= t ->
  nsec * one <= a * 2 ^ t * Minute ->
  round (nsec * one) (Minute * one) <= a * 2 ^ t.
Proof.
  intros Hn Ha Ht H. pose proof one_pos.
  apply round_le; try assumption; unfold Minute in *; nia.
Qed.

Lemma fraction_nonneg nsec : 0 <= nsec -> 0 <= round (nsec * one) (Minute * one).
Proof.
  intros Hn. pose proof one_pos.
  pose proof (round_ge (nsec * one) (Minute * one) 0 0) as Hr.
  unfold Minute in *. lia.
Qed.

Lemma Minutes_eq d :
  0 <= d < 2 ^ 64 ->
  Minutes d = round (d / Minute * one + round (d mod Minute * one) (Minute * one)) one.
Proof.
  intros Hd. unfold Minutes, add, div.
  rewrite Z.quot_div_nonneg, Z.rem_mod_nonneg by (unfold Minute; lia).
  rewrite !of_int_exact by (unfold Minute; change (2 ^ 53) with 9007199254740992;
                            change (2 ^ 64) with 18446744073709551616 in Hd; lia).
  pose proof one_pos. fold Minute.
  rewrite Z.sgn_pos, Z.abs_eq by (unfold Minute; nia). rewrite Z.mul_1_l. reflexivity.
Qed.

Lemma to_int_bounds x m :
  m * one <= x -> (x <= (m + 1) * one -> 0 <= m -> m <= to_int x <= m + 1)
                  /\ (x < (m + 1) * one -> 0 <= m -> to_int x = m).
Proof.
  intros Hl. pose proof one_pos. unfold to_int.
  split; intros Hu Hm; rewrite Z.quot_div_nonneg by nia.
  - split; [apply Z.div_le_lower_bound; lia|].
    apply Z.div_le_upper_bound; lia.
  - assert (m <= x / one) by (apply Z.div_le_lower_bound; lia).
    assert (x / one < m + 1) by (apply Z.div_lt_upper_bound; lia). lia.
Qed.

(** For a duration that is not negative, the count is the number of
    whole minutes or one more. *)
Lemma whole_minutes_nonneg d :
  0 <= d < 2 ^ 64 -> d / Minute <= whole_minutes d <= d / Minute + 1.
Proof.
  intros Hd. unfold whole_minutes. rewrite Minutes_eq by assumption.
  set (m := d / Minute). set (nsec := d mod Minute).
  assert (0 <= m < 2 ^ 29) as Hm.
  { subst m. unfold Minute. change (2 ^ 64) with 18446744073709551616 in Hd.
    change (2 ^ 29) with 536870912. lia. }
  assert (0 <= nsec < Minute) as Hn by (subst nsec; unfold Minute; lia).
  pose proof one_pos as Ho.
  pose proof (fraction_nonneg nsec ltac:(lia)) as Hq0.
  pose proof (fraction_le nsec 1 1074 ltac:(lia) ltac:(lia) ltac:(lia)) as Hq1.
  fold one in Hq1.
  set (q := round (nsec * one) (Minute * one)) in *.
  assert (q <= one) as Hq by (apply Hq1 in Ho || (rewrite Z.mul_1_l in Hq1; apply Hq1; nia)).
  change (2 ^ 29) with 536870912 in Hm.
  pose proof (round_ge (m * one + q) one m 1074) as Hl. fold one in Hl.
  pose proof (round_le (m * one + q) one (m + 1) 1074) as Hu. fold one in Hu.
  change (2 ^ 53) with 9007199254740992 in Hl, Hu.
  apply to_int_bounds; [apply Hl; nia| apply Hu; nia | lia].
Qed.

(** Below 2^17 minutes (some 91 days) the count is the number of whole
    minutes: the sum cannot round up to the next integer. *)
Lemma whole_minutes_exact d :
  0 <= d < 131072 * Minute -> whole_minutes d = d / Minute.
Proof.
  intros Hd. unfold whole_minutes. rewrite Minutes_eq
    by (unfold Minute in *; change (2 ^ 64) with 18446744073709551616; lia).
  set (m := d / Minute). set (nsec := d mod Minute).
  assert (0 <= m < 131072) as Hm by (subst m; unfold Minute in *; lia).
  assert (0 <= nsec < Minute) as Hn by (subst nsec; unfold Minute; lia).
  pose proof one_pos as Ho. pose proof (one_split 36 ltac:(lia)) as H1.
  change (1074 - 36) with 1038 in H1.
  pose proof (pow2_pos 1038 ltac:(lia)) as Hu.
  pose proof (fraction_nonneg nsec ltac:(lia)) as Hq0.
  pose proof (fraction_le nsec (2 ^ 36 - 1) 1038) as Hq1.
  set (q := round (nsec * one) (Minute * one)) in *.
  pose proof (round_ge (m * one + q) one m 1074) as Hl. fold one in Hl.
  pose proof (round_le (m * one + q) one ((m + 1) * 2 ^ 36 - 1) 1038) as Hu1.
  set (x := round (m * one + q) one) in *.
  set (u := 2 ^ 1038) in *.
  change (2 ^ 53) with 9007199254740992 in *.
  change (2 ^ 36) with 68719476736 in *.
  assert (q <= (68719476736 - 1) * u) as Hq.
  { apply Hq1; try lia; rewrite H1; unfold Minute in *; nia. }
  assert (x <= ((m + 1) * 68719476736 - 1) * u) as Hx.
  { apply Hu1; try lia; rewrite H1 at 1; nia. }
  apply to_int_bounds; [apply Hl; nia | rewrite H1; nia | lia].
Qed.

(** No [Duration] gives more than 153722867 minutes. *)
Lemma whole_minutes_max d :
  0 <= d <= 2 ^ 63 -> whole_minutes d <= 153722867.
Proof.
  intros Hd. change (2 ^ 63) with 9223372036854775808 in Hd.
  destruct (Z.le_gt_cases (d / Minute) 153722866) as [Hm|Hm].
  { assert (0 <= d < 2 ^ 64) as Hr by (change (2 ^ 64) with 18446744073709551616; lia).
    apply whole_minutes_nonneg in Hr. lia. }
  unfold whole_minutes. rewrite Minutes_eq
    by (change (2 ^ 64) with 18446744073709551616; lia).
  set (m := d / Minute) in *. set (nsec := d mod Minute).
  assert (m = 153722867) as Hm' by (subst m; unfold Minute in *; lia).
  assert (0 <= nsec <= 16854775808) as Hn by (subst nsec m; unfold Minute in *; lia).
  pose proof one_pos as Ho. pose proof (one_split 1 ltac:(lia)) as H1.
  change (1074 - 1) with 1073 in H1. change (2 ^ 1) with 2 in H1.
  pose proof (pow2_pos 1073 ltac:(lia)) as Hu.
  pose proof (fraction_nonneg nsec ltac:(lia)) as Hq0.
  pose proof (fraction_le nsec 1 1073) as Hq1.
  set (q := round (nsec * one) (Minute * one)) in *.
  pose proof (round_ge (m * one + q) one m 1074) as Hl. fold one in Hl.
  pose proof (round_le (m * one + q) one (2 * m + 1) 1073) as Hu1.
  set (x := round (m * one + q) one) in *.
  set (u := 2 ^ 1073) in *.
  change (2 ^ 53) with 9007199254740992 in *.
  assert (q <= 1 * u) as Hq.
  { apply Hq1; try lia; rewrite H1; unfold Minute in *; nia. }
  assert (x <= (2 * m + 1) * u) as Hx.
  { apply Hu1; try lia; rewrite H1 at 1; nia. }
  assert (to_int x = m); [|lia].
  apply to_int_bounds; [apply Hl; nia | rewrite H1; nia | lia].
Qed.

Lemma whole_minutes_opp d : whole_minutes (- d) = - whole_minutes d.
Proof.
  unfold whole_minutes, Minutes, add, div, to_int, of_int.
  rewrite Z.quot_opp_l, Z.rem_opp_l by (unfold Minute; lia).
  rewrite !round_opp.
  replace (- round (Z.quot d Minute) 1
           + Z.sgn (round (60 * 1000000000) 1)
             * - round (round (Z.rem d Minute) 1) (Z.abs (round (60 * 1000000000) 1)))
    with (- (round (Z.quot d Minute) 1
             + Z.sgn (round (60 * 1000000000) 1)
               * round (round (Z.rem d Minute) 1) (Z.abs (round (60 * 1000000000) 1))))
    by lia.
  rewrite round_opp. apply Z.quot_opp_l. pose proof one_pos. lia.
Qed.

(** What [Allow] needs of the count. *)
Lemma whole_minutes_before d : d < Minute -> - 2 ^ 63 <= d -> whole_minutes d <= 0.
Proof.
  intros Hd Hl. destruct (Z.le_gt_cases 0 d) as [H|H].
  - rewrite whole_minutes_exact by (unfold Minute in *; lia). unfold Minute in *. lia.
  - pose proof (whole_minutes_opp d) as Ho.
    change (2 ^ 63) with 9223372036854775808 in *.
    assert (0 <= - d < 2 ^ 64) as Hr
      by (change (2 ^ 64) with 18446744073709551616; lia).
    apply whole_minutes_nonneg in Hr as [Hn _].
    assert (0 <= - d / Minute) by (apply Z.div_pos; unfold Minute; lia). lia.
Qed.

Lemma whole_minutes_after d : Minute <= d < 2 ^ 63 -> 0 < whole_minutes d.
Proof.
  intros Hd. change (2 ^ 63) with 9223372036854775808 in *.
  assert (0 <= d < 2 ^ 64) as Hr
    by (change (2 ^ 64) with 18446744073709551616; unfold Minute in *; lia).
  apply whole_minutes_nonneg in Hr as [Hn _].
  assert (1 <= d / Minute) by (apply Z.div_le_lower_bound; unfold Minute in *; lia). lia.
Qed.

Example whole_minutes_rounds_up :
  whole_minutes (262144 * Minute + 59999999999) = 262145
  /\ whole_minutes (149999999 * Minute + 59999999999) = 150000000
  /\ whole_minutes (262143 * Minute + 59999999999) = 262143.
Proof. vm_compute. repeat split. Qed.

End Float64Facts.

Lemma max_refills_value : GoTime.max_refills = 153722867.
Proof. reflexivity. Qed.

Lemma whole_minutes_bound t u :
  GoTime.whole_minutes (GoTime.Sub t u) <= GoTime.max_refills.
Proof.
  rewrite max_refills_value.
  pose proof (Sub_le_max t u) as Hu. pose proof (Sub_ge_min t u) as Hl.
  unfold GoInt.max_int, GoInt.min_int in *.
  destruct (Z.le_gt_cases 0 (GoTime.Sub t u)).
  - apply whole_minutes_max. lia.
  - pose proof (whole_minutes_before (GoTime.Sub t u)) as H0.
    unfold GoTime.Minute in H0. lia.
Qed.

Lemma no_refill_before_a_minute now t0 :
  now < t0 + GoTime.Minute ->
  (0 <? GoTime.whole_minutes (GoTime.Sub now t0)) = false.
Proof.
  intros H. apply Z.ltb_ge. pose proof (Sub_ge_min now t0) as Hl.
  apply whole_minutes_before; [|exact Hl].
  unfold GoTime.Sub, GoTime.Minute, GoInt.max_int, GoInt.min_int in *.
  repeat case_match; lia.
Qed.

Lemma refill_after_a_minute now t0 :
  t0 + GoTime.Minute <= now ->
  0 < GoTime.whole_minutes (GoTime.Sub now t0).
Proof.
  intros H. pose proof (Sub_le_max now t0) as Hu.
  apply whole_minutes_after.
  unfold GoTime.Sub, GoTime.Minute, GoInt.max_int, GoInt.min_int in *.
  repeat case_match; lia.
Qed.

(** ** [Allow], one call at a time *)

Section AllowSteps.

Variables (site ip : string) (burst refillMins now : Z).
Variable st : gmap string Bucket.
Let key := bucket_key site ip.

Lemma Allow_fresh :
  st !! key = None ->
  Allow site ip burst refillMins now st
  = (true, <[key := mkBucket burst now]> st).
Proof. intros H. unfold Allow. fold key. by rewrite H. Qed.

Lemma Allow_spend n t0 :
  st !! key = Some (mkBucket n t0) ->
  now < t0 + GoTime.Minute -> 0 < n <= GoInt.max_int ->
  Allow site ip burst refillMins now st
  = (true, <[key := mkBucket (n - 1) t0]> st).
Proof.
  intros H Hnow Hn. unfold Allow. fold key. rewrite H. cbn [ts tokens].
  rewrite no_refill_before_a_minute by done. cbn [ts tokens].
  destruct (Z.leb_spec n 0); [lia|].
  unfold GoInt.sub. rewrite wrap_id; [done|].
  int_range.
Qed.

Lemma Allow_deny n t0 :
  st !! key = Some (mkBucket n t0) ->
  now < t0 + GoTime.Minute -> n <= 0 ->
  Allow site ip burst refillMins now st
  = (false, <[key := mkBucket n t0]> st).
Proof.
  intros H Hnow Hn. unfold Allow. fold key. rewrite H. cbn [ts tokens].
  rewrite no_refill_before_a_minute by done. cbn [ts tokens].
  destruct (Z.leb_spec n 0); [done|lia].
Qed.

(** After a whole minute the bucket is refilled (here from empty, and
    with room for every minute elapsed or up to [burst]) and the call
    is admitted. *)
Lemma Allow_refill t0 :
  st !! key = Some (mkBucket 0 t0) ->
  t0 + GoTime.Minute <= now -> 0 < burst <= GoInt.max_int ->
  exists n, 0 <= n < burst /\
    Allow site ip burst refillMins now st
    = (true, <[key := mkBucket n now]> st).
Proof.
  intros H Hnow Hb. unfold Allow. fold key. rewrite H. cbn [ts tokens].
  pose proof (refill_after_a_minute _ _ Hnow) as Hr.
  pose proof (whole_minutes_bound now t0) as Hm. rewrite max_refills_value in Hm.
  set (r := GoTime.whole_minutes (GoTime.Sub now t0)) in *.
  destruct (Z.ltb_spec 0 r); [|lia]. 
  unfold GoInt.add. rewrite wrap_id
    by int_range.
  rewrite Z.add_0_l.
  set (t := if burst <? r then burst else r).
  assert (0 < t <= burst) as Ht by (subst t; case_match; lia).
  cbn [ts tokens]. destruct (Z.leb_spec t 0); [lia|].
  exists (t - 1). split; [lia|].
  unfold GoInt.sub. rewrite wrap_id; [done|].
  int_range.
Qed.

(** A call reads and writes the bucket of its own key only. *)
Lemma Allow_other k :
  k <> key -> (Allow site ip burst refillMins now st).2 !! k = st !! k.
Proof.
  intros Hk. unfold Allow. fold key.
  repeat case_match; simplify_eq/=; by rewrite lookup_insert_ne.
Qed.


End AllowSteps.

(** ** Admission sequences *)

Lemma run_cons c cs st :
  run (c :: cs) st
  = (((call_key c, (step c st).1) :: (run cs (step c st).2).1), (run cs (step c st).2).2).
Proof.
  cbn [run]. destruct (step c st) as [ok st1]. cbn [fst snd].
  by destruct (run cs st1).
Qed.

Lemma decisions_cons c cs st :
  decisions (c :: cs) st = (step c st).1 :: decisions cs (step c st).2.
Proof. unfold decisions. by rewrite run_cons. Qed.

Lemma decisions_nil st : decisions [] st = [].
Proof. done. Qed.

(** Calls made less than a minute after the last refill spend the
    tokens of the bucket one by one and are denied once it is empty. *)
Lemma decisions_without_refill site ip burst refillMins t0 (times : list Z) :
  forall (n : Z) (st : gmap string Bucket),
    st !! bucket_key site ip = Some (mkBucket n t0) ->
    0 <= n <= GoInt.max_int ->
    Forall (fun t => t < t0 + GoTime.Minute) times ->
    decisions (map (mkCall site ip burst refillMins) times) st
    = (replicate (length times `min` Z.to_nat n)%nat true
       ++ replicate (length times - Z.to_nat n)%nat false)%list.
Proof.
  induction times as [|t times IH]; intros n st Hb Hn Ht; [done|].
  apply Forall_cons in Ht as [Ht Hts].
  cbn [map]. rewrite decisions_cons. unfold step. cbn [c_site c_ip c_burst c_refill c_now].
  destruct (decide (n = 0)) as [->|Hpos].
  - rewrite (Allow_deny _ _ _ _ _ _ 0 t0) by (done || lia). cbn [fst snd].
    rewrite (IH 0) by (rewrite ?lookup_insert_eq; done || lia).
    cbn [Z.to_nat length]. rewrite !Nat.min_0_r, !Nat.sub_0_r. done.
  - rewrite (Allow_spend _ _ _ _ _ _ n t0) by (done || lia). cbn [fst snd].
    rewrite (IH (n - 1)) by (rewrite ?lookup_insert_eq; done || lia).
    cbn [length].
    replace (S (length times) `min` Z.to_nat n)%nat
      with (S (length times `min` Z.to_nat (n - 1))) by lia.
    replace (S (length times) - Z.to_nat n)%nat
      with (length times - Z.to_nat (n - 1))%nat by lia.
    done.
Qed.

(** Three immediate calls with burst 2 are all admitted: the sequence
    is not admit, admit, deny.  With burst 1, as in the package's tests,
    the repeated request is served, not rate-limited. *)
Lemma three_immediate_calls_pass :
  decisions [mkCall "acme" "203.0.113.7" 2 1 0;
             mkCall "acme" "203.0.113.7" 2 1 0;
             mkCall "acme" "203.0.113.7" 2 1 0] ∅
  <> [true; true; false]
  /\ serve (P := reference.platform) (reference.config [reference.acme])
       [(0, reference.post "/v1/contact/acme" [("Content-Type", "application/json")]
              reference.alice_json);
        (0, reference.post "/v1/contact/acme" [("Content-Type", "application/json")]
              reference.alice_json)] ∅
     <> [200; 429].
Proof. split; vm_compute; discriminate. Qed.

(** C1 (as amended).  The call that creates a bucket is admitted and
    leaves all [burst] tokens in it.  With burst 2 and calls less than a
    minute after the first, a new (site, client) pair is admitted three
    times and denied the fourth; a call one minute after that is
    admitted.  With burst 1 the first two calls are admitted and the
    third is denied: the handler answers 200, 200 and 429, as the
    package's test [TestHandleContactRateLimited] expects.  In general
    the first [burst + 1] immediate calls of a new pair are admitted and
    the following ones denied. *)
Theorem Allow_grants_burst_plus_one
    (site ip : string) (t0 t1 t2 t3 t4 : Z) (st : gmap string Bucket) :
  st !! bucket_key site ip = None ->
  t0 <= t1 <= t2 -> t2 <= t3 < t0 + GoTime.Minute -> t3 + GoTime.Minute <= t4 ->
  decisions [mkCall site ip 2 1 t0; mkCall site ip 2 1 t1; mkCall site ip 2 1 t2;
             mkCall site ip 2 1 t3; mkCall site ip 2 1 t4] st
  = [true; true; true; false; true]
  /\ decisions [mkCall site ip 1 1 t0; mkCall site ip 1 1 t1; mkCall site ip 1 1 t2] st
     = [true; true; false]
  /\ (let r := reference.post "/v1/contact/acme" [("Content-Type", "application/json")]
                 reference.alice_json in
      serve (P := reference.platform) (reference.config [reference.acme])
        [(0, r); (0, r); (0, r)] ∅
      = [200; 200; 429])
  /\ (forall (burst refillMins : Z) (times : list Z),
        0 <= burst <= GoInt.max_int ->
        Forall (fun t => t < t0 + GoTime.Minute) times ->
        decisions (mkCall site ip burst refillMins t0
                   :: map (mkCall site ip burst refillMins) times) st
        = (true :: replicate (length times `min` Z.to_nat burst)%nat true
             ++ replicate (length times - Z.to_nat burst)%nat false)%list).
Proof.
  intros Hnew H12 H3 H4.
  assert (GoInt.max_int = 9223372036854775807) as Hmax by reflexivity.
  split; [|split; [|split; [vm_compute; reflexivity|]]].
  - rewrite !decisions_cons, decisions_nil. unfold step. cbn [c_site c_ip c_burst c_refill c_now].
    rewrite (Allow_fresh _ _ _ _ _ _ Hnew). cbn [fst snd].
    rewrite (Allow_spend _ _ _ _ _ _ 2 t0) by (rewrite ?lookup_insert_eq; done || lia).
    cbn [fst snd]. rewrite insert_insert_eq.
    rewrite (Allow_spend _ _ _ _ _ _ (2 - 1) t0) by (rewrite ?lookup_insert_eq; done || lia).
    cbn [fst snd]. rewrite insert_insert_eq.
    rewrite (Allow_deny _ _ _ _ _ _ (2 - 1 - 1) t0) by (rewrite ?lookup_insert_eq; done || lia).
    cbn [fst snd]. rewrite insert_insert_eq.
    destruct (Allow_refill site ip 2 1 t4 (<[bucket_key site ip := mkBucket (2 - 1 - 1) t0]> st) t0)
      as (n & _ & ->); [by rewrite lookup_insert_eq | lia | lia |].
    done.
  - rewrite !decisions_cons, decisions_nil. unfold step. cbn [c_site c_ip c_burst c_refill c_now].
    rewrite (Allow_fresh _ _ _ _ _ _ Hnew). cbn [fst snd].
    rewrite (Allow_spend _ _ _ _ _ _ 1 t0) by (rewrite ?lookup_insert_eq; done || lia).
    cbn [fst snd]. rewrite insert_insert_eq.
    rewrite (Allow_deny _ _ _ _ _ _ (1 - 1) t0) by (rewrite ?lookup_insert_eq; done || lia).
    done.
  - intros burst refillMins times Hb Ht. rewrite decisions_cons. unfold step.
    cbn [c_site c_ip c_burst c_refill c_now].
    rewrite (Allow_fresh _ _ _ _ _ _ Hnew). cbn [fst snd].
    by rewrite (decisions_without_refill _ _ _ _ t0 times burst)
      by (rewrite ?lookup_insert_eq; done).
Qed.

Lemma Allow_grants_burst_plus_one_witness :
  decisions [mkCall "acme" "203.0.113.7" 2 1 0; mkCall "acme" "203.0.113.7" 2 1 5;
             mkCall "acme" "203.0.113.7" 2 1 10; mkCall "acme" "203.0.113.7" 2 1 15;
             mkCall "acme" "203.0.113.7" 2 1 (15 + GoTime.Minute)] ∅
  = [true; true; true; false; true]
  /\ decisions [mkCall "acme" "203.0.113.7" 1 1 0; mkCall "acme" "203.0.113.7" 1 1 5;
                mkCall "acme" "203.0.113.7" 1 1 10] ∅
     = [true; true; false].
Proof.
  destruct (Allow_grants_burst_plus_one "acme" "203.0.113.7" 0 5 10 15
              (15 + GoTime.Minute) ∅) as (H2 & H1 & _).
  - reflexivity.
  - lia.
  - unfold GoTime.Minute. lia.
  - lia.
  - split; [exact H2 | exact H1].
Defined.

(** ** The refill unit *)

(** C2.  One minute after its last refill an empty bucket gets one token
    and the call is admitted, whatever [refillMins] is.  With
    [refillMins = 10] no whole ten-minute unit has elapsed: the count
    the code refills by is 1, the count of the specification is 0. *)
Theorem Allow_refills_by_the_minute :
  (forall refillMins : Z,
     Allow "acme" "203.0.113.7" 3 refillMins GoTime.Minute
       {[ "acme|203.0.113.7" := mkBucket 0 0 ]}
     = (true, {[ "acme|203.0.113.7" := mkBucket 0 GoTime.Minute ]}))
  /\ GoTime.whole_minutes (GoTime.Sub GoTime.Minute 0) = 1
  /\ refills_as_specified 10 (GoTime.Sub GoTime.Minute 0) = 0.
Proof. split; [intros refillMins|split]; vm_compute; reflexivity. Qed.

Lemma Allow_ignores_refillMins site ip burst r1 r2 now st :
  Allow site ip burst r1 now st = Allow site ip burst r2 now st.
Proof. reflexivity. Qed.

(** ** Independence of the buckets *)

Lemma string_app_cons c (s t : string) : String c s +:+ t = String c (s +:+ t).
Proof. reflexivity. Qed.

Lemma string_app_nil_l (t : string) : "" +:+ t = t.
Proof. reflexivity. Qed.


Lemma string_app_length (s t : string) :
  String.length (s +:+ t) = (String.length s + String.length t)%nat.
Proof.
  induction s as [|c s IH]; rewrite ?string_app_cons, ?string_app_nil_l; [done|].
  cbn [String.length]. by rewrite IH.
Qed.










(** ** The bounds of the token count *)

Lemma Allow_tokens_within B site ip refillMins now st :
  0 <= B <= GoInt.max_int - GoTime.max_refills ->
  tokens_within B st ->
  tokens_within B (Allow site ip B refillMins now st).2.
Proof.
  intros HB Hst k b. rewrite max_refills_value in HB.
  assert (GoInt.max_int = 9223372036854775807) as Hmax by reflexivity.
  destruct (decide (k = bucket_key site ip)) as [->|Hne];
    [|rewrite Allow_other by done; apply Hst].
  unfold Allow. destruct (st !! bucket_key site ip) as [b0|] eqn:Hb0.
  - specialize (Hst _ _ Hb0).
    pose proof (whole_minutes_bound now (ts b0)) as Hm. rewrite max_refills_value in Hm.
    set (r := GoTime.whole_minutes (GoTime.Sub now (ts b0))) in *.
    unfold GoInt.add, GoInt.sub.
    destruct (Z.ltb_spec 0 r).
    + rewrite (wrap_id (tokens b0 + r))
        by int_range.
      cbn [tokens ts].
      set (t := if B <? tokens b0 + r then B else tokens b0 + r).
      assert (0 <= t <= B) as Ht by (subst t; case_match; lia).
      destruct (Z.leb_spec t 0); cbn [snd];
        rewrite lookup_insert_eq; intros [= <-]; cbn [tokens]; [lia|].
      rewrite wrap_id by int_range. lia.
    + destruct (Z.leb_spec (tokens b0) 0); cbn [snd];
        rewrite lookup_insert_eq; intros [= <-]; cbn [tokens]; [lia|].
      rewrite wrap_id by int_range. lia.
  - cbn [snd]. rewrite lookup_insert_eq. intros [= <-]. cbn [tokens]. lia.
Qed.

(** With the largest burst the refill of a full bucket wraps around:
    the bucket created at instant 0 holds a negative count after the
    call made one minute later. *)
Lemma tokens_negative_at_max_burst :
  0 <= GoInt.max_int
  /\ (run [mkCall "acme" "203.0.113.7" GoInt.max_int 1 0;
           mkCall "acme" "203.0.113.7" GoInt.max_int 1 GoTime.Minute] ∅).2
       !! "acme|203.0.113.7"
     = Some (mkBucket GoInt.min_int GoTime.Minute)
  /\ tokens (mkBucket GoInt.min_int GoTime.Minute) < 0.
Proof. repeat split; vm_compute; done. Qed.

(** C9 (as amended).  With one burst value [B] given to every call, [B]
    at least 0 and small enough that adding the minutes of a [Duration]
    to it does not overflow, every bucket holds between 0 and [B] tokens
    after every sequence of calls. *)
Theorem tokens_stay_within_burst (B : Z) (cs : list Call) (st : gmap string Bucket) :
  0 <= B <= GoInt.max_int - GoTime.max_refills ->
  Forall (fun c => c_burst c = B) cs ->
  tokens_within B st ->
  tokens_within B (run cs st).2.
Proof.
  intros HB Hcs. revert st.
  induction Hcs as [|c cs Hc _ IH]; intros st Hst; [done|].
  rewrite run_cons. cbn [snd]. apply IH.
  unfold step. rewrite Hc. by apply Allow_tokens_within.
Qed.

Lemma tokens_stay_within_burst_witness :
  tokens_within 3
    (run [mkCall "acme" "203.0.113.7" 3 1 0; mkCall "acme" "203.0.113.7" 3 1 5;
          mkCall "globex" "203.0.113.7" 3 1 7;
          mkCall "acme" "203.0.113.7" 3 1 (4 * GoTime.Minute)] ∅).2.
Proof.
  apply (tokens_stay_within_burst 3).
  - vm_compute. split; discriminate.
  - repeat constructor.
  - intros k b H. rewrite lookup_empty in H. discriminate.
Defined.

(** ** The matcher and the language of a pattern *)

Lemma string_app_eq_nil (s1 s2 : string) : s1 +:+ s2 = "" -> s1 = "" /\ s2 = "".
Proof. destruct s1; [done|]. rewrite string_app_cons. discriminate. Qed.

Lemma string_app_eq_cons (s1 s2 : string) c s :
  s1 +:+ s2 = String c s ->
  (s1 = "" /\ s2 = String c s) \/ (exists s1', s1 = String c s1' /\ s = s1' +:+ s2).
Proof.
  destruct s1 as [|c1 s1]; [left; done|]. rewrite string_app_cons.
  intros [= -> <-]. right. eauto.
Qed.

Lemma string_app_nil_r (s : string) : s +:+ "" = s.
Proof. induction s as [|c s IH]; [done|]. by rewrite string_app_cons, IH. Qed.

Lemma string_app_assoc (s t u : string) : (s +:+ t) +:+ u = s +:+ t +:+ u.
Proof. induction s as [|c s IH]; [done|]. by rewrite !string_app_cons, IH. Qed.

Module regexp_facts.
Import regexp.

Lemma nullable_lang r : nullable r = true <-> lang r "".
Proof.
  split.
  - induction r; cbn [nullable]; intros H; try discriminate.
    + constructor.
    + apply andb_prop in H as [H1 H2].
      change "" with ("" +:+ ""). constructor; auto.
    + apply orb_prop in H as [H|H]; [apply lang_alt_l | apply lang_alt_r]; auto.
    + constructor.
  - intros H. remember "" as s eqn:Hs.
    induction H; cbn [nullable]; try discriminate; try done.
    + apply string_app_eq_nil in Hs as [-> ->]. rewrite IHlang1, IHlang2; done.
    + rewrite IHlang; done.
    + rewrite IHlang. apply orb_true_r. done.
Qed.

Lemma deriv_sound c r : forall s, lang (deriv c r) s -> lang r (String c s).
Proof.
  induction r; cbn [deriv]; intros s H.
  - inversion H.
  - inversion H.
  - destruct (Ascii.eqb_spec c c0) as [->|]; inversion H; subst. constructor.
  - destruct (mem c cs) eqn:Hm; inversion H; subst. by constructor.
  - assert (forall s, lang (Cat (deriv c r1) r2) s -> lang (Cat r1 r2) (String c s)) as Hcat.
    { intros s' H'. inversion H'; subst.
      rewrite <- string_app_cons. constructor; auto. }
    destruct (nullable r1) eqn:Hn; [|by apply Hcat].
    inversion H; subst; [by apply Hcat|].
    change (String c s) with ("" +:+ String c s).
    constructor; [by apply nullable_lang | auto].
  - inversion H; subst; [apply lang_alt_l | apply lang_alt_r]; auto.
  - inversion H; subst. rewrite <- string_app_cons. constructor; auto.
Qed.

Lemma deriv_complete r s' :
  lang r s' -> forall c s, s' = String c s -> lang (deriv c r) s.
Proof.
  induction 1 as [ | c0 | c0 cs Hm | r1 r2 s1 s2 H1 IH1 H2 IH2
                 | r1 r2 s0 H1 IH1 | r1 r2 s0 H2 IH2 | r0
                 | r0 s1 s2 H1 IH1 H2 IH2 ];
    intros c s Hs; cbn [deriv].
  - discriminate.
  - injection Hs as -> <-. rewrite Ascii.eqb_refl. constructor.
  - injection Hs as -> <-. rewrite Hm. constructor.
  - apply string_app_eq_cons in Hs as [[-> ->] | (s1' & -> & ->)].
    + apply nullable_lang in H1. rewrite H1. apply lang_alt_r. by apply IH2.
    + assert (lang (Cat (deriv c r1) r2) (s1' +:+ s2)) by (constructor; auto).
      destruct (nullable r1); [by apply lang_alt_l | done].
  - apply lang_alt_l. by apply IH1.
  - apply lang_alt_r. by apply IH2.
  - discriminate.
  - apply string_app_eq_cons in Hs as [[-> ->] | (s1' & -> & ->)].
    + by apply IH2.
    + constructor; auto.
Qed.

(** The matcher decides the language. *)
Lemma MatchString_lang s : forall r, MatchString r s = true <-> lang r s.
Proof.
  induction s as [|c s IH]; intros r; cbn [MatchString].
  - apply nullable_lang.
  - rewrite IH. split; [apply deriv_sound|]. intros H. by eapply deriv_complete.
Qed.

Lemma lang_cat_inv r1 r2 s :
  lang (Cat r1 r2) s <-> exists s1 s2, s = s1 +:+ s2 /\ lang r1 s1 /\ lang r2 s2.
Proof.
  split.
  - intros H. inversion H; subst. eauto.
  - intros (s1 & s2 & -> & H1 & H2). by constructor.
Qed.

Lemma lang_lit_inv c s : lang (Lit c) s <-> s = String c "".
Proof. split; [by inversion 1 | intros ->; constructor]. Qed.

Lemma lang_star_class cs s :
  lang (Star (NotIn cs)) s <-> all_bytes (fun c => negb (mem c cs)) s = true.
Proof.
  split.
  - intros H. remember (Star (NotIn cs)) as r eqn:Hr.
    induction H as [ | | | | | | | r0 s1 s2 H1 _ H2 IH2 ]; try discriminate; [done|].
    injection Hr as ->. inversion H1; subst.
    rewrite string_app_cons, string_app_nil_l. cbn [all_bytes].
    rewrite IH2 by done. by rewrite H0.
  - induction s as [|c s IH]; cbn [all_bytes]; intros H; [constructor|].
    apply andb_prop in H as [Hc Hs]. apply negb_true_iff in Hc.
    change (String c s) with (String c "" +:+ s).
    constructor; [by constructor | auto].
Qed.

Lemma lang_plus_class cs s :
  lang (Plus (NotIn cs)) s
  <-> s <> "" /\ all_bytes (fun c => negb (mem c cs)) s = true.
Proof.
  unfold Plus. rewrite lang_cat_inv. split.
  - intros (s1 & s2 & -> & H1 & H2). inversion H1; subst.
    rewrite string_app_cons, string_app_nil_l. split; [done|].
    cbn [all_bytes]. apply lang_star_class in H2. by rewrite H2, H0.
  - intros [Hne H]. destruct s as [|c s]; [done|].
    cbn [all_bytes] in H. apply andb_prop in H as [Hc Hs]. apply negb_true_iff in Hc.
    exists (String c ""), s. split; [done|].
    split; [by constructor | by apply lang_star_class].
Qed.

End regexp_facts.

(** ** [emailRegex] *)

Lemma emailRegex_shape (e : string) :
  regexp.MatchString emailRegex e = true <-> email_shape e.
Proof.
  rewrite regexp_facts.MatchString_lang. unfold emailRegex, email_shape, email_word.
  cbv zeta. split.
  - intros H.
    apply regexp_facts.lang_cat_inv in H as (loc & r1 & -> & Hloc & H).
    apply regexp_facts.lang_cat_inv in H as (at_ & r2 & -> & Hat & H).
    apply regexp_facts.lang_cat_inv in H as (d1 & r3 & -> & Hd1 & H).
    apply regexp_facts.lang_cat_inv in H as (dot & d2 & -> & Hdot & Hd2).
    apply regexp_facts.lang_lit_inv in Hat as ->.
    apply regexp_facts.lang_lit_inv in Hdot as ->.
    apply regexp_facts.lang_plus_class in Hloc, Hd1, Hd2.
    exists loc, d1, d2. done.
  - intros (loc & d1 & d2 & Hloc & Hd1 & Hd2 & ->).
    apply regexp_facts.lang_plus_class in Hloc, Hd1, Hd2.
    repeat (apply regexp.lang_cat; [done || constructor |]). done.
Qed.

(** ** The stages of the handler *)

Section HandlerFacts.

Context {P : Platform}.

Lemma httpError_lookup w msg code k :
  k <> "Content-Length" -> k <> "Content-Type" -> k <> "X-Content-Type-Options" ->
  RespHeader (httpError w msg code) !! k = w !! k.
Proof.
  intros H1 H2 H3. unfold httpError, HeaderSet, HeaderDel. cbn [RespHeader].
  rewrite !lookup_insert_ne by done. by rewrite lookup_delete_ne.
Qed.

Lemma resolveSite_codes cfg w r resp :
  resolveSite cfg w r = inl resp ->
  Code resp = 204 \/ Code resp = 405 \/ Code resp = 400 \/ Code resp = 404.
Proof.
  unfold resolveSite. intros H.
  repeat case_match; simplify_eq; cbn [Code httpError]; tauto.
Qed.

(** A request that gets past the site lookup is a POST for a configured
    site. *)
Lemma resolveSite_inr cfg w r siteKey cs :
  resolveSite cfg w r = inr (siteKey, cs) ->
  Method r = "POST"
  /\ siteKey = strings.TrimPrefix (URLPath r) "/v1/contact/"
  /\ Sites cfg !! siteKey = Some cs.
Proof.
  unfold resolveSite. intros H.
  destruct (String.eqb_spec (Method r) "OPTIONS"); [done|].
  destruct (String.eqb_spec (Method r) "POST"); [|done]. cbn [negb] in H.
  case_match; [done|]. case_match eqn:Hs; [|done]. by simplify_eq.
Qed.

Lemma accept_codes cfg now buckets w r out :
  accept cfg now buckets w r = inl out ->
  Code (response out) = 204 \/ Code (response out) = 405 \/ Code (response out) = 400
  \/ Code (response out) = 404 \/ Code (response out) = 429.
Proof.
  unfold accept. intros H.
  destruct (resolveSite cfg w r) as [resp|[siteKey cs]] eqn:Hr.
  - simplify_eq. cbn [response]. apply resolveSite_codes in Hr. tauto.
  - destruct (Allow _ _ _ _ _ _) as [[] b]; cbn [negb] in H; [done|].
    simplify_eq. cbn. tauto.
Qed.

Lemma accept_inr cfg now buckets w r a :
  accept cfg now buckets w r = inr a ->
  exists siteKey,
    resolveSite cfg w r = inr (siteKey, ad_site a)
    /\ ad_ip a = clientIP r
    /\ ad_w a = originPolicy (ad_site a) r w
    /\ Allow siteKey (clientIP r) (RateBurst cfg) (RateRefillMinutes cfg) now buckets
       = (true, ad_buckets a).
Proof.
  unfold accept. intros H.
  destruct (resolveSite cfg w r) as [resp|[siteKey cs]] eqn:Hr; [done|].
  destruct (Allow _ _ _ _ _ _) as [[] b] eqn:Ha; cbn [negb] in H; [|done].
  simplify_eq. cbn. eauto.
Qed.

Lemma captureBody_codes cfg w r resp :
  captureBody cfg w r = inl resp -> Code resp = 400 \/ Code resp = 413.
Proof.
  unfold captureBody. intros H.
  repeat case_match; simplify_eq; cbn [Code httpError]; tauto.
Qed.

(** The ceiling is a multiple of 1024, so adding one to it does not wrap
    around, and a body that passes is the whole body of the request. *)
Lemma captureBody_inr cfg w r body :
  captureBody cfg w r = inr body -> body = Body r.
Proof.
  unfold captureBody, ReadAllLimited, maxBytes, GoInt.add, GoInt.mul, GoInt.wrap.
  set (m := (MaxBodyKB cfg * 1024 + 2 ^ 63) mod 2 ^ 64 - 2 ^ 63).
  assert ((m + 1 + 2 ^ 63) mod 2 ^ 64 - 2 ^ 63 = m + 1) as -> by (subst m; lia).
  intros H.
  destruct (Z.leb_spec (m + 1) 0).
  - destruct (Z.ltb_spec m (strings.len "")); [done|].
    unfold strings.len in *. cbn in *. lia.
  - destruct (Z.leb_spec (m + 1) (strings.len (Body r))).
    + destruct (Z.ltb_spec m (strings.len (strings.take (Z.to_nat (m + 1)) (Body r))));
        [done|]. exfalso.
      assert (forall n s, (n <= String.length s)%nat ->
                String.length (strings.take n s) = n) as Htake.
      { clear. induction n as [|n IH]; intros [|c s] Hn; cbn in *; try lia.
        rewrite IH; lia. }
      unfold strings.len in *. rewrite Htake in * by lia. lia.
    + destruct (BodyFails r); [done|]. case_match; by simplify_eq.
Qed.


Lemma authenticate_inr cfg now buckets w r a body :
  authenticate cfg now buckets w r = inr (a, body)
  <-> accept cfg now buckets w r = inr a
      /\ captureBody cfg (ad_w a) r = inr body
      /\ unauthorized (ad_site a) r body = false.
Proof.
  unfold authenticate. split.
  - intros H. repeat case_match; simplify_eq. done.
  - intros (-> & -> & ->). done.
Qed.

Lemma decodePayload_codes cfg w r body resp :
  decodePayload cfg w r body = inl resp ->
  Code resp = 400
  \/ (Code resp = 415
      /\ takesJSON cfg (HeaderGet (ReqHeader r) "Content-Type") = false
      /\ AllowForm cfg = false).
Proof.
  unfold decodePayload. intros H.
  repeat case_match; simplify_eq; cbn [Code httpError]; tauto.
Qed.

Lemma decode_inr cfg now buckets w r a p :
  decode cfg now buckets w r = inr (a, p)
  <-> exists body,
        authenticate cfg now buckets w r = inr (a, body)
        /\ decodePayload cfg (ad_w a) r body = inr p.
Proof.
  unfold decode. split.
  - intros H. repeat case_match; simplify_eq. eauto.
  - intros (body & -> & ->). done.
Qed.

Lemma deliver_codes a p :
  Code (response (deliver a p)) = 400
  \/ Code (response (deliver a p)) = 500
  \/ Code (response (deliver a p)) = 200.
Proof. unfold deliver. repeat case_match; cbn; tauto. Qed.

End HandlerFacts.

(** ** Signatures *)

Lemma hexdigits_lower c :
  strings.lower (strings.hexdigit (strings.code c / 16)) = strings.hexdigit (strings.code c / 16)
  /\ strings.lower (strings.hexdigit (strings.code c mod 16))
     = strings.hexdigit (strings.code c mod 16).
Proof. destruct c as [[] [] [] [] [] [] [] []]; split; reflexivity. Qed.

(** The hexadecimal encoding is in lower case already. *)
Lemma ToLower_EncodeToString s :
  strings.ToLower (strings.EncodeToString s) = strings.EncodeToString s.
Proof.
  unfold strings.ToLower.
  induction s as [|c s IH]; cbn [strings.EncodeToString strings.map_bytes]; [done|].
  destruct (hexdigits_lower c) as [-> ->]. by rewrite IH.
Qed.






Section Signatures.

Context {P : Platform}.


Lemma verifyHMAC_true body secret hexSig :
  verifyHMAC body secret hexSig = true
  <-> secret <> "" /\ hexSig <> ""
      /\ strings.ToLower hexSig = strings.EncodeToString (hmac_sha256 secret body).
Proof.
  unfold verifyHMAC. rewrite ToLower_EncodeToString.
  destruct (String.eqb_spec secret ""), (String.eqb_spec hexSig ""); cbn [orb];
    try (split; [done | tauto]).
  rewrite String.eqb_eq. split; [intros <-; done | intros (_ & _ & ->); done].
Qed.


End Signatures.

(** ** Authentication *)



(** ** The origin policy *)

(** C3.  With the single allowed origin [*], a request from another
    origin is served and gets no [Access-Control-Allow-Origin] header
    (the package's test [TestHandleContactCORSWildcard] expects the
    header [*] here). *)
Theorem wildcard_origin_not_honoured :
  let cs := mkSiteCfg "acme" "ops@example.com" ["*"] "[Contact]" ""
              (Some (mkSmtpCfg "smtp.example.com" 587 "user" "pass" false))
              "noreply@example.com" in
  let r := reference.post "/v1/contact/acme"
             [("Content-Type", "application/json"); ("Origin", "https://any.origin.com")]
             reference.alice_json in
  let out := HandleContact (P := reference.platform) (reference.config [cs]) 0 ∅ ∅ r in
  Code (response out) = 200
  /\ RespHeader (response out) !! "Access-Control-Allow-Origin" = None
  /\ RespHeader (response out) !! "Vary" = None.
Proof. vm_compute. done. Qed.

(** ** Validation *)

Lemma invalidSubmission_iff (p : ContactRequest) :
  invalidSubmission p = true
  <-> Website p <> "" \/ Name p = "" \/ ~ email_shape (Email p)
      \/ strings.TrimSpace (Message p) = "".
Proof.
  unfold invalidSubmission. rewrite !orb_true_iff, !negb_true_iff.
  rewrite <- emailRegex_shape, !String.eqb_eq, String.eqb_neq.
  rewrite not_true_iff_false. tauto.
Qed.

Lemma HandleContact_decoded {P : Platform} cfg now buckets w r a p :
  decode cfg now buckets w r = inr (a, p) ->
  HandleContact cfg now buckets w r = deliver a p.
Proof. unfold HandleContact. by intros ->. Qed.

(** C5.  A submission is turned away exactly when the honeypot is
    filled, the name is empty, the e-mail address does not have the
    shape of the pattern, or the message is empty once trimmed; the
    handler then answers with the one "invalid submission" rejection and
    hands nothing off, and otherwise hands the message off.  A filled
    honeypot alone is enough, and a name of white space is not empty. *)
Theorem validation_rejects_iff :
  (forall p : ContactRequest,
     invalidSubmission p = true
     <-> Website p <> "" \/ Name p = "" \/ ~ email_shape (Email p)
         \/ strings.TrimSpace (Message p) = "")
  /\ (forall (P : Platform) cfg now buckets w r a p,
        decode cfg now buckets w r = inr (a, p) ->
        (invalidSubmission p = true ->
         HandleContact cfg now buckets w r
         = mkOutcome (httpError (ad_w a) "invalid submission" 400) (ad_buckets a) None)
        /\ (invalidSubmission p = false ->
            handed_off (HandleContact cfg now buckets w r)
            = Some (composeEmail (ad_site a) p (ad_ip a))
            /\ RespBody (response (HandleContact cfg now buckets w r))
               <> "invalid submission" +:+ strings.nl))
  /\ (forall p : ContactRequest, Website p <> "" -> invalidSubmission p = true)
  /\ invalidSubmission (mkContactRequest " " "alice@example.com" "Hello there" "") = false.
Proof.
  split; [exact invalidSubmission_iff|]. split; [|split].
  - intros P cfg now buckets w r a p Hd. rewrite (HandleContact_decoded _ _ _ _ _ _ _ Hd).
    unfold deliver. split; intros ->; [done|].
    destruct (sendEmailFunc (ad_site a) _); cbn; split; done.
  - intros p H. apply invalidSubmission_iff. by left.
  - vm_compute. reflexivity.
Qed.

Lemma validation_rejects_iff_witness :
  let r := reference.post "/v1/contact/acme" [("Content-Type", "application/json")]
             (reference.q "{'name':'Alice','email':'alice@example.com','message':'Hi','website':'x'}") in
  HandleContact (P := reference.platform) (reference.config [reference.acme]) 0 ∅ ∅ r
  = mkOutcome
      (httpError ∅ "invalid submission" 400)
      {[ "acme|192.0.2.1" := mkBucket 1 0 ]} None.
Proof.
  intros r.
  destruct validation_rejects_iff as (_ & H & Hpot & _).
  destruct (H reference.platform (reference.config [reference.acme]) 0 ∅ ∅ r
              (mkAccepted reference.acme "192.0.2.1" ∅ {[ "acme|192.0.2.1" := mkBucket 1 0 ]})
              (mkContactRequest "Alice" "alice@example.com" "Hi" "x")) as [Hrej _].
  - vm_compute. reflexivity.
  - apply Hrej. apply Hpot. discriminate.
Defined.

(** ** The choice of the decoder *)

(** C10.  With form decoding enabled, a request whose content type does
    not take the JSON branch ([text/plain], none at all, or
    [application/json] with JSON decoding disabled) goes to
    [ParseForm]; the handler answers 415 exactly when it gets to the
    decoder with the JSON branch not taken and form decoding
    disabled, hence never when form decoding is enabled. *)
Theorem decoder_selection :
  (forall (P : Platform) cfg w r body,
     AllowForm cfg = true ->
     takesJSON cfg (HeaderGet (ReqHeader r) "Content-Type") = false ->
     decodePayload cfg w r body
     = match ParseForm (Method r) (HeaderGet (ReqHeader r) "Content-Type")
               (RawQuery r) body with
       | None => inl (httpError w "bad form" 400)
       | Some form =>
           inr (mkContactRequest (FormGet form "name") (FormGet form "email")
                  (FormGet form "message") (FormGet form "website"))
       end)
  /\ (forall cfg, takesJSON cfg "text/plain" = false /\ takesJSON cfg "" = false)
  /\ (forall cfg ct, AllowJSON cfg = false -> takesJSON cfg ct = false)
  /\ (forall (P : Platform) cfg now buckets w r,
        Code (response (HandleContact cfg now buckets w r)) = 415
        <-> exists a body,
              authenticate cfg now buckets w r = inr (a, body)
              /\ takesJSON cfg (HeaderGet (ReqHeader r) "Content-Type") = false
              /\ AllowForm cfg = false)
  /\ (forall (P : Platform) cfg now buckets w r,
        AllowForm cfg = true ->
        Code (response (HandleContact cfg now buckets w r)) <> 415).
Proof.
  assert (forall (P : Platform) cfg now buckets w r,
        Code (response (HandleContact cfg now buckets w r)) = 415
        <-> exists a body,
              authenticate cfg now buckets w r = inr (a, body)
              /\ takesJSON cfg (HeaderGet (ReqHeader r) "Content-Type") = false
              /\ AllowForm cfg = false) as H415.
  { intros P cfg now buckets w r. unfold HandleContact, decode.
    destruct (authenticate cfg now buckets w r) as [out|[a body]] eqn:Hau.
    { split; [|intros (? & ? & ? & _); done]. intros Hcode. exfalso.
      unfold authenticate in Hau.
      destruct (accept cfg now buckets w r) as [out'|a] eqn:Ha.
      { pose proof (accept_codes _ _ _ _ _ _ Ha). simplify_eq; try lia. }
      destruct (captureBody cfg (ad_w a) r) as [resp|body] eqn:Hc.
      { pose proof (captureBody_codes _ _ _ _ Hc). simplify_eq; try (cbn in *; lia). }
      destruct (unauthorized (ad_site a) r body); simplify_eq; try (cbn in *; lia). }
    unfold decodePayload.
    destruct (takesJSON cfg _) eqn:Hj.
    { split; [|intros (? & ? & _ & ? & _); done].
      destruct (json_Decode body); cbn; [|lia]. pose proof (deliver_codes a c). lia. }
    destruct (AllowForm cfg) eqn:Hf.
    { split; [|intros (? & ? & _ & _ & ?); done].
      destruct (ParseForm _ _ _ _); cbn; [|lia].
      match goal with |- Code (response (deliver a ?p)) = _ -> _ =>
        pose proof (deliver_codes a p) end. lia. }
    cbn. split; [|done]. intros _. eauto. }
  split; [|split; [|split; [|split]]].
  - intros P cfg w r body Hf Hj. unfold decodePayload. by rewrite Hj, Hf.
  - intros cfg. split; reflexivity.
  - intros cfg ct H. unfold takesJSON. rewrite H. apply andb_false_r.
  - exact H415.
  - intros P cfg now buckets w r Hf. rewrite H415. intros (? & ? & _ & _ & ?). congruence.
Qed.

Lemma decoder_selection_witness :
  let r := reference.post "/v1/contact/acme" [("Content-Type", "text/plain")]
             reference.alice_form in
  Code (response (HandleContact (P := reference.platform)
                    (reference.config [reference.acme]) 0 ∅ ∅ r)) <> 415
  /\ decodePayload (P := reference.platform) (reference.config [reference.acme]) ∅ r
       reference.alice_form
     = inr (mkContactRequest "" "" "" "").
Proof.
  intros r. destruct decoder_selection as (Hform & _ & _ & _ & Hnever).
  split.
  - apply Hnever. reflexivity.
  - rewrite Hform; [vm_compute; reflexivity | reflexivity | reflexivity].
Defined.

(** ** Response headers and the [Origin] header *)

Section OriginFacts.

Context {P : Platform}.

Lemma matchOrigin_allowed origin allowed w :
  origin ∈ allowed ->
  matchOrigin origin allowed w
  = HeaderSet (HeaderSet w "Access-Control-Allow-Origin" origin) "Vary" "Origin".
Proof.
  induction allowed as [|ao allowed IH]; intros Hin; [by apply elem_of_nil in Hin|].
  cbn [matchOrigin]. destruct (String.eqb_spec origin ao) as [->|Hne]; [done|].
  apply elem_of_cons in Hin as [?|Hin]; [done|]. by apply IH.
Qed.

Lemma matchOrigin_other origin allowed w :
  origin ∉ allowed -> matchOrigin origin allowed w = w.
Proof.
  induction allowed as [|ao allowed IH]; intros Hin; [done|].
  cbn [matchOrigin]. apply not_elem_of_cons in Hin as [Hne Hin].
  destruct (String.eqb_spec origin ao); [done|]. by apply IH.
Qed.

Lemma originPolicy_allowed cs r w :
  HeaderGet (ReqHeader r) "Origin" ∈ AllowedOrigins cs ->
  originPolicy cs r w
  = HeaderSet (HeaderSet w "Access-Control-Allow-Origin" (HeaderGet (ReqHeader r) "Origin"))
      "Vary" "Origin".
Proof.
  intros Hin. unfold originPolicy.
  destruct (AllowedOrigins cs) as [|ao l] eqn:Hl; [by apply elem_of_nil in Hin|].
  cbn [length]. destruct (Z.ltb_spec 0 (Z.of_nat (S (length l)))); [|lia].
  by apply matchOrigin_allowed.
Qed.

Lemma originPolicy_other cs r w :
  HeaderGet (ReqHeader r) "Origin" ∉ AllowedOrigins cs -> originPolicy cs r w = w.
Proof.
  intros Hin. unfold originPolicy. case_match; [|done]. by apply matchOrigin_other.
Qed.

Lemma captureBody_inl cfg w r resp :
  captureBody cfg w r = inl resp -> exists msg code, resp = httpError w msg code.
Proof. unfold captureBody. intros H. repeat case_match; simplify_eq; eauto. Qed.

Lemma decodePayload_inl cfg w r body resp :
  decodePayload cfg w r body = inl resp -> exists msg code, resp = httpError w msg code.
Proof. unfold decodePayload. intros H. repeat case_match; simplify_eq; eauto. Qed.

(** Past the site lookup, the handler touches no header of the response
    besides those of the body, after the origin policy has run. *)
Lemma HandleContact_headers cfg now buckets w r siteKey cs k :
  resolveSite cfg w r = inr (siteKey, cs) ->
  k <> "Content-Length" -> k <> "Content-Type" -> k <> "X-Content-Type-Options" ->
  RespHeader (response (HandleContact cfg now buckets w r)) !! k
  = originPolicy cs r w !! k.
Proof.
  intros Hr H1 H2 H3. unfold HandleContact, decode, authenticate, accept. rewrite Hr.
  destruct (Allow _ _ _ _ _ _) as [[] b]; cbn [negb response ad_w ad_site ad_buckets];
    [|by apply httpError_lookup].
  destruct (captureBody _ _ _) as [resp|body] eqn:Hc; cbn [response].
  { apply captureBody_inl in Hc as (msg & code & ->). by apply httpError_lookup. }
  destruct (unauthorized _ _ _); cbn [response ad_w]; [by apply httpError_lookup|].
  destruct (decodePayload _ _ _ _) as [resp|p] eqn:Hd; cbn [response].
  { apply decodePayload_inl in Hd as (msg & code & ->). by apply httpError_lookup. }
  unfold deliver. cbn [ad_w ad_site ad_ip ad_buckets].
  repeat case_match; cbn [response RespHeader]; try by apply httpError_lookup.
  unfold HeaderSet. by rewrite lookup_insert_ne.
Qed.

Lemma HeaderGet_same r1 r2 k :
  same_but_origin r1 r2 -> k <> "Origin" ->
  HeaderGet (ReqHeader r1) k = HeaderGet (ReqHeader r2) k.
Proof. intros (_ & _ & _ & _ & _ & _ & H) Hk. unfold HeaderGet. by rewrite H. Qed.

Lemma clientIP_same r1 r2 : same_but_origin r1 r2 -> clientIP r1 = clientIP r2.
Proof.
  intros H. unfold clientIP. rewrite (HeaderGet_same r1 r2) by done.
  destruct H as (_ & _ & _ & -> & _). done.
Qed.

Lemma resolveSite_same cfg w1 w2 r1 r2 :
  same_but_origin r1 r2 -> alike (resolveSite cfg w1 r1) (resolveSite cfg w2 r2).
Proof.
  intros (Hm & Hp & _). unfold resolveSite. rewrite <- Hm, <- Hp.
  repeat case_match; done.
Qed.

Lemma captureBody_same cfg w1 w2 r1 r2 :
  same_but_origin r1 r2 -> alike (captureBody cfg w1 r1) (captureBody cfg w2 r2).
Proof.
  intros (_ & _ & _ & _ & Hb & Hf & _). unfold captureBody, ReadAllLimited.
  rewrite <- Hb, <- Hf. repeat case_match; done.
Qed.

Lemma unauthorized_same cs r1 r2 body :
  same_but_origin r1 r2 -> unauthorized cs r1 body = unauthorized cs r2 body.
Proof.
  intros H. unfold unauthorized. by rewrite (HeaderGet_same r1 r2).
Qed.

Lemma decodePayload_same cfg w1 w2 r1 r2 body :
  same_but_origin r1 r2 ->
  alike (decodePayload cfg w1 r1 body) (decodePayload cfg w2 r2 body).
Proof.
  intros H. unfold decodePayload. rewrite (HeaderGet_same r1 r2) by done.
  destruct H as (<- & _ & <- & _). repeat case_match; done.
Qed.

Lemma verdict_deliver a1 a2 p :
  ad_site a1 = ad_site a2 -> ad_ip a1 = ad_ip a2 -> ad_buckets a1 = ad_buckets a2 ->
  verdict (deliver a1 p) = verdict (deliver a2 p).
Proof.
  intros H1 H2 H3. unfold deliver. rewrite H1, H2, H3. repeat case_match; done.
Qed.

Lemma verdict_same cfg now buckets w1 w2 r1 r2 :
  same_but_origin r1 r2 ->
  verdict (HandleContact cfg now buckets w1 r1)
  = verdict (HandleContact cfg now buckets w2 r2).
Proof.
  intros Hsame.
  unfold HandleContact, decode, authenticate, accept.
  pose proof (resolveSite_same cfg w1 w2 r1 r2 Hsame) as Hr.
  destruct (resolveSite cfg w1 r1) as [x|[k cs]], (resolveSite cfg w2 r2) as [y|[k' cs']];
    cbn [alike] in Hr; try done.
  { unfold verdict. cbn. by destruct Hr as [-> ->]. }
  injection Hr as <- <-. rewrite <- (clientIP_same r1 r2) by done.
  destruct (Allow _ _ _ _ _ _) as [[] b]; cbn [negb ad_w ad_site ad_ip ad_buckets]; [|done].
  pose proof (captureBody_same cfg (originPolicy cs r1 w1) (originPolicy cs r2 w2) r1 r2 Hsame)
    as Hc.
  destruct (captureBody cfg _ r1) as [x|body], (captureBody cfg _ r2) as [y|body'];
    cbn [alike] in Hc; try done.
  { unfold verdict. cbn. by destruct Hc as [-> ->]. }
  subst body'. rewrite <- (unauthorized_same cs r1 r2) by done.
  destruct (unauthorized cs r1 body); [done|]. cbn [ad_w].
  pose proof (decodePayload_same cfg (originPolicy cs r1 w1) (originPolicy cs r2 w2)
                r1 r2 body Hsame) as Hd.
  destruct (decodePayload cfg _ r1 body) as [x|p], (decodePayload cfg _ r2 body) as [y|p'];
    cbn [alike] in Hd; try done.
  { unfold verdict. cbn. by destruct Hd as [-> ->]. }
  subst p'. by apply verdict_deliver.
Qed.

End OriginFacts.

(** C8.  For a request that resolves to a site: when its [Origin] is
    one of the site's allowed origins, the response carries
    [Access-Control-Allow-Origin] with that very origin and
    [Vary: Origin]; when it is not, the handler leaves both headers as
    it found them and goes on.  Two requests that differ in their
    [Origin] only get the same status, body, bucket update and
    hand-off. *)
Theorem origin_policy (P : Platform) cfg now buckets w r siteKey cs :
  resolveSite cfg w r = inr (siteKey, cs) ->
  let origin := HeaderGet (ReqHeader r) "Origin" in
  let out := HandleContact cfg now buckets w r in
  (origin ∈ AllowedOrigins cs ->
   RespHeader (response out) !! "Access-Control-Allow-Origin" = Some [origin]
   /\ RespHeader (response out) !! "Vary" = Some ["Origin"])
  /\ (origin ∉ AllowedOrigins cs ->
      RespHeader (response out) !! "Access-Control-Allow-Origin"
      = w !! "Access-Control-Allow-Origin"
      /\ RespHeader (response out) !! "Vary" = w !! "Vary")
  /\ (forall r' w', same_but_origin r r' ->
      verdict (HandleContact cfg now buckets w' r') = verdict out).
Proof.
  intros Hr origin out. subst out. split; [|split].
  - intros Hin.
    rewrite !(HandleContact_headers _ _ _ _ _ _ _ _ Hr) by done.
    rewrite originPolicy_allowed by done. unfold HeaderSet.
    rewrite lookup_insert_ne, !lookup_insert_eq by done. done.
  - intros Hout.
    rewrite !(HandleContact_headers _ _ _ _ _ _ _ _ Hr) by done.
    by rewrite originPolicy_other.
  - intros r' w' Hsame. symmetry. by apply verdict_same.
Qed.

Lemma origin_policy_witness :
  let cs := mkSiteCfg "acme" "ops@example.com" ["https://example.com"] "[Contact]" ""
              (Some (mkSmtpCfg "smtp.example.com" 587 "user" "pass" false))
              "noreply@example.com" in
  let r := reference.post "/v1/contact/acme"
             [("Content-Type", "application/json"); ("Origin", "https://example.com")]
             reference.alice_json in
  let out := HandleContact (P := reference.platform) (reference.config [cs]) 0 ∅ ∅ r in
  RespHeader (response out) !! "Access-Control-Allow-Origin" = Some ["https://example.com"]
  /\ RespHeader (response out) !! "Vary" = Some ["Origin"].
Proof.
  intros cs r out.
  destruct (origin_policy reference.platform (reference.config [cs]) 0 ∅ ∅ r "acme" cs)
    as (Hin & _ & _).
  - vm_compute. reflexivity.
  - apply Hin. vm_compute. apply list_elem_of_here.
Defined.

(** ** The two encodings *)

Section Encodings.

Context {P : Platform}.

(** The outbound message is made of the site, the client address and
    the name, e-mail address and message of the submission. *)
Lemma composeEmail_ext cs ip p q :
  Name p = Name q -> Email p = Email q -> Message p = Message q ->
  composeEmail cs p ip = composeEmail cs q ip.
Proof. intros H1 H2 H3. unfold composeEmail. by rewrite H1, H2, H3. Qed.

Lemma handed_off_inv cfg now buckets w r e :
  handed_off (HandleContact cfg now buckets w r) = Some e ->
  exists a p,
    decode cfg now buckets w r = inr (a, p)
    /\ invalidSubmission p = false
    /\ e = composeEmail (ad_site a) p (ad_ip a).
Proof.
  unfold HandleContact. intros H.
  destruct (decode cfg now buckets w r) as [out|[a p]] eqn:Hd.
  - exfalso. unfold decode, authenticate, accept in Hd.
    repeat case_match; simplify_eq; done.
  - exists a, p. split; [done|]. unfold deliver in H.
    destruct (invalidSubmission p); [done|]. split; [done|].
    destruct (negb _); cbn in H; by simplify_eq.
Qed.

(** What a decoded request was decoded from. *)
Lemma decode_inv cfg now buckets w r a p :
  decode cfg now buckets w r = inr (a, p) ->
  Sites cfg !! strings.TrimPrefix (URLPath r) "/v1/contact/" = Some (ad_site a)
  /\ ad_ip a = clientIP r
  /\ decodePayload cfg (ad_w a) r (Body r) = inr p.
Proof.
  intros H. apply decode_inr in H as (body & Hau & Hd).
  apply authenticate_inr in Hau as (Ha & Hc & _).
  apply captureBody_inr in Hc as ->.
  apply accept_inr in Ha as (k & Hr & Hip & _).
  apply resolveSite_inr in Hr as (_ & -> & Hs). done.
Qed.

End Encodings.

(** C7.  A JSON request and a form request for the same site and from
    the same client, whose payloads decode to the same name, e-mail
    address and message, are handed off as the same message: sender,
    recipient, reply-to, subject and text.  When both are decoded and
    the submission is valid, both are handed off. *)
Theorem json_and_form_compose_alike (P : Platform)
    cfg now1 now2 buckets1 buckets2 w1 w2 r1 r2 p form :
  URLPath r1 = URLPath r2 -> clientIP r1 = clientIP r2 ->
  takesJSON cfg (HeaderGet (ReqHeader r1) "Content-Type") = true ->
  json_Decode (Body r1) = Some p ->
  takesJSON cfg (HeaderGet (ReqHeader r2) "Content-Type") = false ->
  ParseForm (Method r2) (HeaderGet (ReqHeader r2) "Content-Type") (RawQuery r2) (Body r2)
  = Some form ->
  FormGet form "name" = Name p -> FormGet form "email" = Email p ->
  FormGet form "message" = Message p ->
  let out1 := HandleContact cfg now1 buckets1 w1 r1 in
  let out2 := HandleContact cfg now2 buckets2 w2 r2 in
  (forall e1 e2, handed_off out1 = Some e1 -> handed_off out2 = Some e2 -> e1 = e2)
  /\ (forall a1 a2 p1 p2,
        decode cfg now1 buckets1 w1 r1 = inr (a1, p1) ->
        decode cfg now2 buckets2 w2 r2 = inr (a2, p2) ->
        invalidSubmission p1 = false -> invalidSubmission p2 = false ->
        handed_off out1 = Some (composeEmail (ad_site a1) p (ad_ip a1))
        /\ handed_off out2 = handed_off out1).
Proof.
  intros Hpath Hip Hj1 Hd1 Hj2 Hd2 Hn He Hm out1 out2.
  assert (forall a1 p1 a2 p2,
            decode cfg now1 buckets1 w1 r1 = inr (a1, p1) ->
            decode cfg now2 buckets2 w2 r2 = inr (a2, p2) ->
            p1 = p
            /\ composeEmail (ad_site a2) p2 (ad_ip a2)
               = composeEmail (ad_site a1) p (ad_ip a1)) as Hsame.
  { intros a1 p1 a2 p2 H1 H2.
    apply decode_inv in H1 as (Hs1 & Hip1 & Hp1).
    apply decode_inv in H2 as (Hs2 & Hip2 & Hp2).
    unfold decodePayload in Hp1, Hp2. rewrite Hj1, Hd1 in Hp1. rewrite Hj2 in Hp2.
    destruct (AllowForm cfg); [|done]. rewrite Hd2 in Hp2.
    injection Hp1 as <-. injection Hp2 as <-.
    rewrite Hpath, Hs2 in Hs1. injection Hs1 as ->.
    rewrite Hip1, Hip2, Hip. split; [done|]. by apply composeEmail_ext. }
  split.
  - intros e1 e2 H1 H2.
    apply handed_off_inv in H1 as (a1 & p1 & H1 & _ & ->).
    apply handed_off_inv in H2 as (a2 & p2 & H2 & _ & ->).
    destruct (Hsame _ _ _ _ H1 H2) as [-> ->]. done.
  - intros a1 a2 p1 p2 H1 H2 Hv1 Hv2.
    destruct (Hsame _ _ _ _ H1 H2) as [-> Hc].
    subst out1 out2. rewrite (HandleContact_decoded _ _ _ _ _ _ _ H1).
    rewrite (HandleContact_decoded _ _ _ _ _ _ _ H2).
    unfold deliver. rewrite Hv1, Hv2, Hc.
    destruct (negb (sendEmailFunc (ad_site a1) _)),
             (negb (sendEmailFunc (ad_site a2) _)); done.
Qed.

Lemma json_and_form_compose_alike_witness :
  let cfg := reference.config [reference.acme] in
  let r1 := reference.post "/v1/contact/acme" [("Content-Type", "application/json")]
              reference.alice_json in
  let r2 := reference.post "/v1/contact/acme"
              [("Content-Type", "application/x-www-form-urlencoded")]
              reference.alice_form in
  let out1 := HandleContact (P := reference.platform) cfg 0 ∅ ∅ r1 in
  let out2 := HandleContact (P := reference.platform) cfg 0 ∅ ∅ r2 in
  handed_off out1
  = Some (composeEmail reference.acme
            (mkContactRequest "Alice" "alice@example.com" "Hello there" "") "192.0.2.1")
  /\ handed_off out2 = handed_off out1.
Proof.
  intros cfg r1 r2 out1 out2.
  destruct (json_and_form_compose_alike reference.platform cfg 0 0 ∅ ∅ ∅ ∅ r1 r2
              (mkContactRequest "Alice" "alice@example.com" "Hello there" "")
              (list_to_map [("name", ["Alice"]); ("email", ["alice@example.com"]);
                            ("message", ["Hello there"])]))
    as [_ H]; try (vm_compute; reflexivity).
  apply (H (mkAccepted reference.acme "192.0.2.1" ∅ {[ "acme|192.0.2.1" := mkBucket 1 0 ]})
           (mkAccepted reference.acme "192.0.2.1" ∅ {[ "acme|192.0.2.1" := mkBucket 1 0 ]})
           (mkContactRequest "Alice" "alice@example.com" "Hello there" "")
           (mkContactRequest "Alice" "alice@example.com" "Hello there" ""));
    vm_compute; reflexivity.
Defined.

(** ** The package's tests, run on the model *)

(** [TestHandleContactJSONSuccess] *)
Example test_json_success :
  let r := reference.post "/v1/contact/acme" [("Content-Type", "application/json")]
             reference.alice_json in
  let out := HandleContact (P := reference.platform)
               (reference.config [reference.acme]) 0 ∅ ∅ r in
  Code (response out) = 200
  /\ RespBody (response out) = okBody
  /\ handed_off out
     = Some (email.mkEmail "noreply@example.com" ["ops@example.com"]
               ["Alice <alice@example.com>"] "[Contact] New contact"
               ("Site: acme" +:+ strings.nl +:+ "From: Alice <alice@example.com>"
                +:+ strings.nl +:+ "IP: 192.0.2.1" +:+ strings.nl +:+ strings.nl
                +:+ "Hello there" +:+ strings.nl)).
Proof. vm_compute. done. Qed.

(** [TestHandleContactCORSAllowed] *)
Example test_cors_allowed :
  let cs := mkSiteCfg "acme" "ops@example.com" ["https://example.com"] "[Contact]" ""
              (Some (mkSmtpCfg "smtp.example.com" 587 "user" "pass" false))
              "noreply@example.com" in
  let r := reference.post "/v1/contact/acme"
             [("Content-Type", "application/json"); ("Origin", "https://example.com")]
             reference.alice_json in
  let out := HandleContact (P := reference.platform) (reference.config [cs]) 0 ∅ ∅ r in
  Code (response out) = 200
  /\ HeaderGet (RespHeader (response out)) "Access-Control-Allow-Origin"
     = "https://example.com".
Proof. vm_compute. done. Qed.

(** [TestHandleContactCORSForbidden] expects 403 and no hand-off for an
    origin that is not allowed; the handler serves the request. *)
Example test_cors_forbidden_is_served :
  let cs := mkSiteCfg "acme" "ops@example.com" ["https://allowed.example.com"]
              "[Contact]" ""
              (Some (mkSmtpCfg "smtp.example.com" 587 "user" "pass" false))
              "noreply@example.com" in
  let r := reference.post "/v1/contact/acme"
             [("Content-Type", "application/json");
              ("Origin", "https://blocked.example.com")]
             reference.alice_json in
  let out := HandleContact (P := reference.platform) (reference.config [cs]) 0 ∅ ∅ r in
  Code (response out) = 200
  /\ RespHeader (response out) !! "Access-Control-Allow-Origin" = None
  /\ is_Some (handed_off out).
Proof. vm_compute. repeat split; eauto. Qed.

(* ================================================================== *)
(** * Part III: further properties of the code                         *)
(* ================================================================== *)

(** ** The rate limiter *)









Lemma Allow_dom site ip burst refillMins now (st : gmap string Bucket) :
  dom (Allow site ip burst refillMins now st).2 = {[ bucket_key site ip ]} ∪ dom st.
Proof.
  unfold Allow. repeat case_match; cbn [snd]; by rewrite dom_insert_L.
Qed.

(** X3.  No call removes a bucket: after any sequence of calls the store
    holds the buckets it had and one for every key that was used. *)
Theorem buckets_only_grow (cs : list Call) (st : gmap string Bucket) :
  dom (run cs st).2 = dom st ∪ keys_of cs.
Proof.
  revert st. induction cs as [|c cs IH]; intros st.
  - cbn. unfold keys_of. cbn. by rewrite union_empty_r_L.
  - rewrite run_cons. cbn [snd]. rewrite IH. unfold step. rewrite Allow_dom.
    unfold keys_of. cbn [fmap list_fmap list_to_set]. unfold call_key.
    rewrite (comm_L (∪) {[bucket_key (c_site c) (c_ip c)]} (dom st)).
    by rewrite (assoc_L (∪)).
Qed.

Lemma Allow_nonpositive site ip B refillMins now st t0 :
  st !! bucket_key site ip = Some (mkBucket B t0) ->
  GoInt.min_int <= B <= 0 ->
  exists t1, Allow site ip B refillMins now st
             = (false, <[bucket_key site ip := mkBucket B t1]> st).
Proof.
  intros Hb HB. unfold Allow. rewrite Hb. cbn [tokens ts].
  pose proof (whole_minutes_bound now t0) as Hm. rewrite max_refills_value in Hm.
  set (r := GoTime.whole_minutes (GoTime.Sub now t0)) in *.
  destruct (Z.ltb_spec 0 r).
  - unfold GoInt.add. rewrite wrap_id by int_range.
    destruct (Z.ltb_spec B (B + r)); [|lia]. cbn [tokens ts].
    destruct (Z.leb_spec B 0); [|lia]. eauto.
  - cbn [tokens ts]. destruct (Z.leb_spec B 0); [|lia]. eauto.
Qed.

(** X4.  With a burst of zero or less, a (site, client) pair is admitted
    once, by the call that creates its bucket, and never again, however
    long it waits. *)
Theorem nonpositive_burst_locks_out site ip B refillMins t0 (times : list Z)
    (st : gmap string Bucket) :
  GoInt.min_int <= B <= 0 ->
  st !! bucket_key site ip = None ->
  decisions (mkCall site ip B refillMins t0 :: map (mkCall site ip B refillMins) times) st
  = true :: replicate (length times) false.
Proof.
  intros HB Hnew. rewrite decisions_cons. unfold step.
  cbn [c_site c_ip c_burst c_refill c_now].
  rewrite (Allow_fresh _ _ _ _ _ _ Hnew). cbn [fst snd]. f_equal.
  assert (forall t (st' : gmap string Bucket),
            st' !! bucket_key site ip = Some (mkBucket B t) ->
            decisions (map (mkCall site ip B refillMins) times) st'
            = replicate (length times) false) as H.
  { induction times as [|t' times IH]; intros t st' Hb; [done|].
    cbn [map]. rewrite decisions_cons. unfold step.
    cbn [c_site c_ip c_burst c_refill c_now].
    destruct (Allow_nonpositive site ip B refillMins t' st' t Hb HB) as [t1 ->].
    cbn [fst snd length replicate]. f_equal.
    apply (IH t1). by rewrite lookup_insert_eq. }
  apply (H t0). by rewrite lookup_insert_eq.
Qed.

Lemma nonpositive_burst_locks_out_witness :
  decisions (mkCall "acme" "203.0.113.7" 0 1 0
             :: map (mkCall "acme" "203.0.113.7" 0 1) [GoTime.Minute; 10 * GoTime.Minute]) ∅
  = true :: replicate (length [GoTime.Minute; 10 * GoTime.Minute]) false.
Proof.
  apply (nonpositive_burst_locks_out "acme" "203.0.113.7" 0 1 0).
  - vm_compute. split; discriminate.
  - reflexivity.
Defined.

(** ** The handler *)

Section HandlerMore.

Context {P : Platform}.

Lemma authenticate_codes cfg now buckets w r out :
  authenticate cfg now buckets w r = inl out ->
  Code (response out) = 204 \/ Code (response out) = 405 \/ Code (response out) = 400
  \/ Code (response out) = 404 \/ Code (response out) = 429
  \/ Code (response out) = 413 \/ Code (response out) = 401.
Proof.
  unfold authenticate. intros H.
  destruct (accept cfg now buckets w r) as [out'|a] eqn:Ha.
  { pose proof (accept_codes _ _ _ _ _ _ Ha). simplify_eq. tauto. }
  destruct (captureBody cfg (ad_w a) r) as [resp|body] eqn:Hc.
  { pose proof (captureBody_codes _ _ _ _ Hc). simplify_eq. cbn [response]. tauto. }
  destruct (unauthorized (ad_site a) r body); simplify_eq. cbn. tauto.
Qed.

Lemma decode_codes cfg now buckets w r out :
  decode cfg now buckets w r = inl out ->
  Code (response out) = 204 \/ Code (response out) = 405 \/ Code (response out) = 400
  \/ Code (response out) = 404 \/ Code (response out) = 429
  \/ Code (response out) = 413 \/ Code (response out) = 401
  \/ Code (response out) = 415.
Proof.
  unfold decode. intros H.
  destruct (authenticate cfg now buckets w r) as [out'|[a body]] eqn:Ha.
  { pose proof (authenticate_codes _ _ _ _ _ _ Ha). simplify_eq. tauto. }
  destruct (decodePayload cfg (ad_w a) r body) as [resp|p] eqn:Hd; [|done].
  pose proof (decodePayload_codes _ _ _ _ _ Hd). simplify_eq. cbn [response]. tauto.
Qed.

(** X5.  The handler answers with one of ten status codes; 403 is not
    among them. *)
Theorem HandleContact_codes cfg now buckets w r :
  Code (response (HandleContact cfg now buckets w r))
  ∈ [200; 204; 400; 401; 404; 405; 413; 415; 429; 500].
Proof.
  unfold HandleContact.
  destruct (decode cfg now buckets w r) as [out|[a p]] eqn:Hd.
  - pose proof (decode_codes _ _ _ _ _ _ Hd) as H.
    repeat destruct H as [H|H]; rewrite H;
      repeat first [apply list_elem_of_here | apply list_elem_of_further].
  - pose proof (deliver_codes a p) as H.
    repeat destruct H as [H|H]; rewrite H;
      repeat first [apply list_elem_of_here | apply list_elem_of_further].
Qed.

(** X6.  The rate limiter runs before the body is read: a request turned
    away for its method, its path or an unknown site leaves the buckets
    alone, and every other request, whatever becomes of it (oversized,
    unsigned, malformed, invalid, undelivered), has been counted. *)
Theorem quota_spent_before_checks cfg now buckets w r :
  buckets_after (HandleContact cfg now buckets w r)
  = match resolveSite cfg w r with
    | inl _ => buckets
    | inr (siteKey, _) =>
        (Allow siteKey (clientIP r) (RateBurst cfg) (RateRefillMinutes cfg) now buckets).2
    end.
Proof.
  unfold HandleContact, decode, authenticate, accept.
  destruct (resolveSite cfg w r) as [resp|[siteKey cs]]; [done|].
  destruct (Allow _ _ _ _ _ _) as [[] b]; cbn [negb snd ad_buckets ad_w ad_site]; [|done].
  destruct (captureBody _ _ _); [done|].
  destruct (unauthorized _ _ _); [done|]. cbn [ad_buckets ad_w].
  destruct (decodePayload _ _ _ _); [done|].
  unfold deliver. repeat case_match; done.
Qed.

(** X7.  A message is handed to the sender exactly when the answer is
    200 or 500, 200 when the sender reports success; the message comes
    from a decoded submission that passed validation. *)
Theorem hand_off_iff cfg now buckets w r :
  let out := HandleContact cfg now buckets w r in
  (is_Some (handed_off out) <-> Code (response out) = 200 \/ Code (response out) = 500)
  /\ (forall e, handed_off out = Some e ->
      exists a p,
        decode cfg now buckets w r = inr (a, p)
        /\ invalidSubmission p = false
        /\ e = composeEmail (ad_site a) p (ad_ip a)
        /\ Code (response out) = if sendEmailFunc (ad_site a) e then 200 else 500).
Proof.
  cbn zeta. unfold HandleContact.
  destruct (decode cfg now buckets w r) as [out|[a p]] eqn:Hd.
  - assert (handed_off out = None) as Hnone.
    { unfold decode, authenticate, accept in Hd. repeat case_match; simplify_eq; done. }
    pose proof (decode_codes _ _ _ _ _ _ Hd). rewrite Hnone. split.
    + split; [intros [? ?]; done | lia].
    + done.
  - unfold deliver. destruct (invalidSubmission p) eqn:Hv; cbn.
    + split; [|done]. split; [intros [? ?]; done | lia].
    + destruct (sendEmailFunc (ad_site a) _) eqn:Hs; cbn.
      * split; [split; [by left | eauto]|].
        intros e [= <-]. exists a, p. by rewrite Hs.
      * split; [split; [by right | eauto]|].
        intros e [= <-]. exists a, p. by rewrite Hs.
Qed.


Lemma strip_all_none fuel pats s :
  strings.strip_one pats s = None -> strings.strip_all fuel pats s = s.
Proof. intros H. destruct fuel; cbn [strings.strip_all]; [done|]. by rewrite H. Qed.

Lemma rev_app_ones n m : String.rev_app (ones n) (ones m) = ones (n + m).
Proof.
  revert m. induction n as [|n IH]; intros m; [done|].
  cbn [ones String.rev_app]. change (String "1" (ones m)) with (ones (S m)).
  rewrite IH. by rewrite Nat.add_succ_r.
Qed.

Lemma rev_ones n : String.rev (ones n) = ones n.
Proof.
  unfold String.rev. change "" with (ones 0). rewrite rev_app_ones.
  by rewrite Nat.add_0_r.
Qed.

Lemma TrimSpace_ones n : strings.TrimSpace (ones (S n)) = ones (S n).
Proof.
  unfold strings.TrimSpace, strings.TrimLeftSpace, strings.TrimRightSpace.
  rewrite (strip_all_none _ _ (ones (S n))) by reflexivity.
  rewrite rev_ones. rewrite (strip_all_none _ _ (ones (S n))) by reflexivity.
  apply rev_ones.
Qed.

Lemma Split_ones n : strings.Split (ones n) "," = [ones n].
Proof.
  induction n as [|n IH]; cbn [ones strings.Split]; [done|].
  change (Ascii.eqb "1" ",") with false. cbn match. by rewrite IH.
Qed.

Lemma clientIP_forwarded r n :
  clientIP (with_forwarded_for r (ones (S n))) = ones (S n).
Proof.
  unfold clientIP, with_forwarded_for, HeaderGet, HeaderSet. cbn [ReqHeader].
  rewrite lookup_insert_eq. cbn [ones String.eqb negb].
  change (String "1" (ones n)) with (ones (S n)).
  rewrite Split_ones. cbn [hd]. apply TrimSpace_ones.
Qed.

Lemma length_ones n : String.length (ones n) = n.
Proof. induction n as [|n IH]; cbn; [done|]. by rewrite IH. Qed.

(** The keys of a store are of bounded length. *)
Lemma keys_bounded (st : gmap string Bucket) :
  exists L : nat, forall k, is_Some (st !! k) -> (String.length k <= L)%nat.
Proof.
  induction st as [|k b st Hk _ [L IH]] using map_first_key_ind.
  - exists O. intros k. rewrite lookup_empty. intros [? ?]. done.
  - exists (L `max` String.length k)%nat. intros k'.
    destruct (decide (k = k')) as [<-|Hne]; [lia|].
    rewrite lookup_insert_ne by done. intros H. specialize (IH _ H). lia.
Qed.

(** X9.  The limiter trusts [X-Forwarded-For]: for every state of the
    buckets, a request to a configured site can carry a value of that
    header under which it is not rate limited. *)
Theorem forwarded_for_evades_limit cfg now buckets w r siteKey cs :
  resolveSite cfg w r = inr (siteKey, cs) ->
  exists xf,
    Code (response (HandleContact cfg now buckets w (with_forwarded_for r xf))) <> 429.
Proof.
  intros Hr. destruct (keys_bounded buckets) as [L HL].
  exists (ones (S L)).
  assert (buckets !! bucket_key siteKey (ones (S L)) = None) as Hnew.
  { destruct (buckets !! _) eqn:Hb; [|done]. exfalso.
    specialize (HL _ (mk_is_Some _ _ Hb)). unfold bucket_key in HL.
    rewrite !string_app_length, length_ones in HL. lia. }
  unfold HandleContact, decode, authenticate, accept.
  change (resolveSite cfg w (with_forwarded_for r (ones (S L))))
    with (resolveSite cfg w r).
  rewrite Hr, clientIP_forwarded, (Allow_fresh _ _ _ _ _ _ Hnew).
  cbn [negb ad_w ad_site ad_buckets ad_ip].
  destruct (captureBody _ _ _) as [resp|body] eqn:Hc.
  { pose proof (captureBody_codes _ _ _ _ Hc). cbn [response]. lia. }
  destruct (unauthorized _ _ _); [cbn; lia|]. cbn [ad_w].
  destruct (decodePayload _ _ _ _) as [resp|p] eqn:Hd.
  { pose proof (decodePayload_codes _ _ _ _ _ Hd). cbn [response]. lia. }
  pose proof (deliver_codes
                (mkAccepted cs (ones (S L))
                   (originPolicy cs (with_forwarded_for r (ones (S L))) w)
                   (<[bucket_key siteKey (ones (S L)) := mkBucket (RateBurst cfg) now]> buckets))
                p).
  lia.
Qed.



Lemma resolveSite_inl cfg w r resp :
  resolveSite cfg w r = inl resp ->
  resp = mkResponse 204
           (HeaderSet (HeaderSet w "Access-Control-Allow-Methods" "POST, OPTIONS")
              "Access-Control-Allow-Headers" "Content-Type, X-Signature") ""
  \/ exists msg code, resp = httpError w msg code.
Proof.
  unfold resolveSite. intros H. repeat case_match; simplify_eq; eauto.
Qed.




End HandlerMore.

Lemma forwarded_for_evades_limit_witness :
  let cfg := reference.config [reference.acme] in
  let r := reference.post "/v1/contact/acme" [("Content-Type", "application/json")]
             reference.alice_json in
  Code (response (HandleContact (P := reference.platform) cfg 0
                    {[ "acme|192.0.2.1" := mkBucket 0 0 ]} ∅ r)) = 429
  /\ exists xf,
       Code (response (HandleContact (P := reference.platform) cfg 0
                         {[ "acme|192.0.2.1" := mkBucket 0 0 ]} ∅
                         (with_forwarded_for r xf))) <> 429.
Proof.
  intros cfg r. split; [vm_compute; reflexivity|].
  apply (forwarded_for_evades_limit (P := reference.platform) cfg 0 _ ∅ r
           "acme" reference.acme).
  vm_compute. reflexivity.
Defined.

(** ** Accepted submissions and the path of a site *)

Lemma count_byte_app c (s t : string) :
  count_byte c (s +:+ t) = (count_byte c s + count_byte c t)%nat.
Proof.
  induction s as [|c' s IH]; rewrite ?string_app_cons, ?string_app_nil_l; [done|].
  cbn [count_byte]. rewrite IH. lia.
Qed.

Lemma email_word_count c s :
  regexp.mem c ("@"%char :: regexp.perl_space) = true ->
  all_bytes email_byte s = true -> count_byte c s = O.
Proof.
  intros Hc. induction s as [|c' s IH]; cbn [all_bytes count_byte]; [done|].
  intros H. apply andb_prop in H as [Hc' Hs]. rewrite IH by done.
  destruct (Ascii.eqb_spec c' c) as [->|]; [|done].
  unfold email_byte in Hc'. by rewrite Hc in Hc'.
Qed.

(** X11.  A submission that passes validation has an e-mail address
    with exactly one [@] and no space, tab, line feed, form feed or
    carriage return, a name that is not empty and an empty honeypot. *)
Theorem accepted_submission_shape (p : ContactRequest) :
  invalidSubmission p = false ->
  count_byte "@" (Email p) = 1%nat
  /\ (forall c, c ∈ regexp.perl_space -> count_byte c (Email p) = O)
  /\ Name p <> "" /\ Website p = ""
  /\ strings.TrimSpace (Message p) <> "".
Proof.
  intros H. apply not_true_iff_false in H. rewrite invalidSubmission_iff in H.
  assert (Website p = "") as Hw by (destruct (decide (Website p = "")); tauto).
  assert (Name p <> "") as Hn by tauto.
  assert (strings.TrimSpace (Message p) <> "") as Hm by tauto.
  assert (email_shape (Email p)) as (loc & d1 & d2 & [_ Hl] & [_ H1] & [_ H2] & ->).
  { rewrite <- emailRegex_shape.
    destruct (regexp.MatchString emailRegex (Email p)) eqn:He; [done|].
    exfalso. apply H. right. right. left. rewrite <- emailRegex_shape, He. done. }
  split; [|split; [|done]].
  - rewrite !count_byte_app.
    rewrite (email_word_count "@" loc), (email_word_count "@" d1),
      (email_word_count "@" d2) by (done || reflexivity).
    reflexivity.
  - intros c Hc. rewrite !count_byte_app.
    unfold regexp.perl_space in Hc. cbn [map] in Hc.
    repeat (apply elem_of_cons in Hc as [->|Hc]); try (by apply elem_of_nil in Hc);
      rewrite (email_word_count _ loc), (email_word_count _ d1),
        (email_word_count _ d2) by (done || reflexivity);
      reflexivity.
Qed.

Lemma accepted_submission_shape_witness :
  count_byte "@" "alice@example.com" = 1%nat
  /\ (forall c, c ∈ regexp.perl_space -> count_byte c "alice@example.com" = O)
  /\ "Alice" <> "" /\ "" = ""
  /\ strings.TrimSpace "Hello there" <> "".
Proof.
  apply (accepted_submission_shape
           (mkContactRequest "Alice" "alice@example.com" "Hello there" "")).
  vm_compute. reflexivity.
Defined.

Lemma HasPrefix_app (p s : string) : strings.HasPrefix (p +:+ s) p = true.
Proof.
  induction p as [|c p IH]; [by destruct s|]. rewrite string_app_cons.
  cbn [strings.HasPrefix]. by rewrite Ascii.eqb_refl, IH.
Qed.





(** ** The response writer of the logging middleware *)

Lemma wrap_add_l a b : GoInt.wrap (GoInt.wrap a + b) = GoInt.wrap (a + b).
Proof.
  unfold GoInt.wrap. f_equal.
  replace ((a + 2 ^ 63) mod 2 ^ 64 - 2 ^ 63 + b + 2 ^ 63)
    with ((a + 2 ^ 63) mod 2 ^ 64 + b) by lia.
  rewrite Zplus_mod_idemp_l. f_equal. lia.
Qed.

Lemma wrap_wrap a : GoInt.wrap (GoInt.wrap a) = GoInt.wrap a.
Proof. apply wrap_id, wrap_in_range. Qed.

Lemma writer_wrote lrw o : logging.wrote (logging.apply lrw o) = true.
Proof. by destruct o, lrw as [e s l []]. Qed.

(** Once the header is out, the writer forwards the writes and nothing
    else, and keeps the status of the last [WriteHeader]. *)
Lemma writer_after_header ops lrw :
  logging.wrote lrw = true ->
  logging.embedded (fold_left logging.apply ops lrw)
  = (logging.embedded lrw ++ logging.writes ops)%list
  /\ logging.status (fold_left logging.apply ops lrw)
     = logging.last_header (logging.status lrw) ops.
Proof.
  revert lrw. induction ops as [|o ops IH]; intros lrw Hw.
  { cbn. by rewrite app_nil_r. }
  cbn [fold_left].
  destruct (IH _ (writer_wrote lrw o)) as [-> ->].
  destruct o as [st|p n]; cbn; rewrite Hw; cbn; [done|].
  by rewrite <- app_assoc.
Qed.

Lemma writer_length ops lrw :
  logging.wrote lrw = true ->
  GoInt.wrap (logging.length lrw) = logging.length lrw ->
  logging.length (fold_left logging.apply ops lrw)
  = GoInt.wrap (logging.length lrw + logging.written ops).
Proof.
  revert lrw. induction ops as [|o ops IH]; intros lrw Hw Hl.
  { cbn. by rewrite Z.add_0_r. }
  cbn [fold_left]. rewrite (IH _ (writer_wrote lrw o)).
  - destruct o as [st|p n]; cbn; rewrite Hw; cbn; [done|].
    unfold GoInt.add. rewrite wrap_add_l. f_equal. lia.
  - destruct o as [st|p n]; cbn; rewrite Hw; cbn; [done|].
    apply wrap_wrap.
Qed.

(** X13.  Whatever the handler does with the writer, the server's own
    writer gets one [WriteHeader], before anything else, with the status
    of the handler's first call (200 when that is a [Write]), and then
    the writes in order; a later [WriteHeader] is not passed on.  The
    status kept for the log is that of the last [WriteHeader], which
    is then not the one sent. *)
Theorem header_sent_once (ops : list logging.op) :
  logging.embedded (logging.run ops)
  = match ops with
    | [] => []
    | logging.OpWriteHeader st :: _ => logging.CallWriteHeader st :: logging.writes ops
    | logging.OpWrite _ _ :: _ => logging.CallWriteHeader 200 :: logging.writes ops
    end
  /\ logging.status (logging.run ops) = logging.last_header 200 ops.
Proof.
  unfold logging.run. destruct ops as [|o ops]; [done|]. cbn [fold_left].
  destruct (writer_after_header ops (logging.apply logging.fresh o)
              (writer_wrote _ _)) as [-> ->].
  by destruct o.
Qed.

(** X14.  The length kept for the log is the sum of the counts the
    server's writer returned, in the arithmetic of [int]. *)
Theorem bytes_counted (ops : list logging.op) :
  logging.length (logging.run ops) = GoInt.wrap (logging.written ops).
Proof.
  unfold logging.run. destruct ops as [|o ops]; [done|]. cbn [fold_left].
  rewrite writer_length by (try apply writer_wrote; destruct o; cbn; try done; apply wrap_wrap).
  destruct o as [st|p n]; cbn; [done|].
  unfold GoInt.add. by rewrite wrap_add_l.
Qed.

(** ** Names of environment variables *)

Lemma key_char_ok c : env.key_byte (env.key_char c) = true.
Proof. by destruct c as [[] [] [] [] [] [] [] []]. Qed.

Lemma key_byte_fixed c :
  env.key_byte c = true -> env.between 0 127 c = true /\ env.key_char c = c.
Proof. by destruct c as [[] [] [] [] [] [] [] []]. Qed.

Lemma ToEnvKey_from_ok fuel s :
  all_bytes env.key_byte (env.ToEnvKey_from fuel s) = true.
Proof.
  revert s. induction fuel as [|fuel IH]; intros s; [done|].
  destruct s as [|c s]; [done|]. cbn [env.ToEnvKey_from].
  repeat case_match; cbn [all_bytes]; rewrite ?key_char_ok, IH; done.
Qed.

Lemma ToEnvKey_from_fixed fuel s :
  all_bytes env.key_byte s = true -> (String.length s <= fuel)%nat ->
  env.ToEnvKey_from fuel s = s.
Proof.
  revert s. induction fuel as [|fuel IH]; intros [|c s] H Hl; cbn in Hl; try done; try lia.
  cbn [all_bytes] in H. apply andb_true_iff in H as [Hc H].
  apply key_byte_fixed in Hc as [Ha Hk].
  cbn [env.ToEnvKey_from]. rewrite Ha, Hk, IH; [done|done|lia].
Qed.

(** X15.  The name [ToEnvKey] gives is made of capital letters, digits
    and underscores, whatever the site key. *)
Theorem ToEnvKey_alphabet (s : string) :
  all_bytes env.key_byte (env.ToEnvKey s) = true.
Proof. apply ToEnvKey_from_ok. Qed.

(** X16.  [ToEnvKey] leaves a name of capital letters, digits and
    underscores as it is; so it is idempotent, and a site key and the
    name made from it read the same variables. *)
Theorem ToEnvKey_idempotent (s : string) :
  env.ToEnvKey (env.ToEnvKey s) = env.ToEnvKey s.
Proof.
  unfold env.ToEnvKey at 1. apply ToEnvKey_from_fixed; [apply ToEnvKey_from_ok|done].
Qed.

Lemma ToEnvKey_from_ascii fuel s :
  all_bytes (env.between 0 127) s = true -> (String.length s <= fuel)%nat ->
  env.ToEnvKey_from fuel s = strings.map_bytes env.key_char s.
Proof.
  revert s. induction fuel as [|fuel IH]; intros [|c s] H Hl; cbn in Hl; try done; try lia.
  cbn [all_bytes] in H. apply andb_true_iff in H as [Hc H].
  cbn [env.ToEnvKey_from strings.map_bytes]. rewrite Hc, IH; [done|done|lia].
Qed.

(** X17.  On a key of ASCII characters [ToEnvKey] works character by
    character: a letter gives its capital, a digit itself, anything
    else an underscore; the name is as long as the key. *)
Theorem ToEnvKey_ascii (s : string) :
  all_bytes (env.between 0 127) s = true ->
  env.ToEnvKey s = strings.map_bytes env.key_char s
  /\ String.length (env.ToEnvKey s) = String.length s.
Proof.
  intros H. unfold env.ToEnvKey. rewrite ToEnvKey_from_ascii by done. split; [done|].
  clear H. induction s as [|c s IH]; [done|].
  cbn [strings.map_bytes String.length]. by rewrite IH.
Qed.

Lemma ToEnvKey_ascii_witness :
  env.ToEnvKey "my-site.2" = strings.map_bytes env.key_char "my-site.2"
  /\ String.length (env.ToEnvKey "my-site.2") = String.length "my-site.2".
Proof. apply ToEnvKey_ascii. by vm_compute. Defined.

(** ** Lists of words in a variable *)

Lemma rev_app_spec (s acc : string) : String.rev_app s acc = String.rev s +:+ acc.
Proof.
  unfold String.rev. revert acc. induction s as [|c s IH]; intros acc; [done|].
  cbn [String.rev_app]. rewrite IH, (IH (String c "")), string_app_assoc.
  by rewrite string_app_cons, string_app_nil_l.
Qed.

Lemma rev_cons c (s : string) : String.rev (String c s) = String.rev s +:+ String c "".
Proof. unfold String.rev at 1. cbn [String.rev_app]. apply rev_app_spec. Qed.

Lemma rev_app_distr (s t : string) : String.rev (s +:+ t) = String.rev t +:+ String.rev s.
Proof.
  induction s as [|c s IH]; [by rewrite string_app_nil_l, string_app_nil_r|].
  by rewrite string_app_cons, !rev_cons, IH, string_app_assoc.
Qed.

Lemma rev_involutive (s : string) : String.rev (String.rev s) = s.
Proof.
  induction s as [|c s IH]; [done|].
  by rewrite rev_cons, rev_app_distr, IH.
Qed.

Lemma rev_length (s : string) : String.length (String.rev s) = String.length s.
Proof.
  induction s as [|c s IH]; [done|].
  rewrite rev_cons, string_app_length, IH. cbn. lia.
Qed.

Lemma HasPrefix_inv (s p : string) :
  strings.HasPrefix s p = true -> s = p +:+ strings.drop (String.length p) s.
Proof.
  revert s. induction p as [|c p IH]; intros s H; [done|].
  destruct s as [|c' s]; [done|]. cbn [strings.HasPrefix] in H.
  apply andb_true_iff in H as [Hc H]. apply Ascii.eqb_eq in Hc as ->.
  cbn [String.length strings.drop]. rewrite string_app_cons. f_equal. by apply IH.
Qed.

Lemma HasPrefix_app_l (s p x : string) :
  strings.HasPrefix s p = true -> strings.HasPrefix (s +:+ x) p = true.
Proof.
  intros H. rewrite (HasPrefix_inv _ _ H), string_app_assoc. apply HasPrefix_app.
Qed.

(** What [strip_one] takes off is one of the patterns. *)
Lemma strip_one_Some pats s s' :
  strings.strip_one pats s = Some s' -> exists p, p ∈ pats /\ s = p +:+ s'.
Proof.
  induction pats as [|p pats IH]; [done|]. cbn [strings.strip_one].
  destruct (strings.HasPrefix s p) eqn:Hp.
  - intros [= <-]. exists p. split; [apply list_elem_of_here|]. by apply HasPrefix_inv.
  - intros H. destruct (IH H) as (q & Hq & ->). exists q. split; [|done].
    by apply list_elem_of_further.
Qed.

Lemma strip_one_prefix pats (t x : string) :
  strings.strip_one pats (t +:+ x) = None -> strings.strip_one pats t = None.
Proof.
  induction pats as [|p pats IH]; [done|]. cbn [strings.strip_one].
  destruct (strings.HasPrefix t p) eqn:Hp.
  - by rewrite (HasPrefix_app_l _ _ x Hp).
  - destruct (strings.HasPrefix (t +:+ x) p); [done|]. apply IH.
Qed.

(** [strip_all] leaves a tail of the string, and with fuel for every
    byte nothing more can be taken off it. *)
Lemma strip_all_suffix fuel pats s :
  exists pre, s = pre +:+ strings.strip_all fuel pats s.
Proof.
  revert s. induction fuel as [|fuel IH]; intros s; [by exists ""|].
  cbn [strings.strip_all]. destruct (strings.strip_one pats s) as [s'|] eqn:H; [|by exists ""].
  apply strip_one_Some in H as (p & _ & ->). destruct (IH s') as [pre Hpre].
  exists (p +:+ pre). by rewrite string_app_assoc, <- Hpre.
Qed.

Lemma strip_all_done fuel pats s :
  Forall (fun p => p <> "") pats -> (String.length s <= fuel)%nat ->
  strings.strip_one pats (strings.strip_all fuel pats s) = None.
Proof.
  intros Hp. revert s. induction fuel as [|fuel IH]; intros s Hl.
  - destruct s; [|cbn in Hl; lia]. cbn [strings.strip_all].
    induction Hp as [|p pats Hne _ IHp]; [done|]. cbn [strings.strip_one].
    by destruct p.
  - cbn [strings.strip_all]. destruct (strings.strip_one pats s) as [s'|] eqn:H; [|done].
    apply IH. apply strip_one_Some in H as (p & Hin & ->).
    rewrite Forall_forall in Hp. specialize (Hp p Hin).
    rewrite string_app_length in Hl. destruct p; [done|]. cbn in Hl. lia.
Qed.

Lemma space_left_nonempty : Forall (fun p => p <> "") (map strings.utf8 strings.space_runes).
Proof. unfold strings.space_runes. cbn. repeat constructor; discriminate. Qed.

Lemma space_right_nonempty :
  Forall (fun p => p <> "") (map (fun bs => strings.utf8 (rev bs)) strings.space_runes).
Proof. unfold strings.space_runes. cbn. repeat constructor; discriminate. Qed.

(** [TrimSpace s] is a part of [s]. *)
Lemma TrimSpace_infix (s : string) :
  exists pre post, s = pre +:+ strings.TrimSpace s +:+ post.
Proof.
  unfold strings.TrimSpace, strings.TrimRightSpace.
  set (u := strings.TrimLeftSpace s).
  destruct (strip_all_suffix (String.length s) (map strings.utf8 strings.space_runes) s)
    as [pre Hpre]. fold (strings.TrimLeftSpace s) in Hpre. fold u in Hpre.
  destruct (strip_all_suffix (String.length u)
              (map (fun bs => strings.utf8 (rev bs)) strings.space_runes) (String.rev u))
    as [post Hpost].
  exists pre, (String.rev post). rewrite <- rev_app_distr, <- Hpost, rev_involutive.
  exact Hpre.
Qed.

(** Nothing is left to trim on either side of [TrimSpace s]. *)
Lemma TrimSpace_idempotent (s : string) :
  strings.TrimSpace (strings.TrimSpace s) = strings.TrimSpace s.
Proof.
  unfold strings.TrimSpace at 1 3.
  set (u := strings.TrimLeftSpace s).
  assert (strings.strip_one (map strings.utf8 strings.space_runes) u = None) as Hu.
  { apply strip_all_done; [apply space_left_nonempty|done]. }
  unfold strings.TrimRightSpace at 2.
  set (w := strings.strip_all _ _ (String.rev u)).
  assert (strings.strip_one (map (fun bs => strings.utf8 (rev bs)) strings.space_runes) w
          = None) as Hw.
  { apply strip_all_done; [apply space_right_nonempty|]. by rewrite rev_length. }
  destruct (strip_all_suffix (String.length u)
              (map (fun bs => strings.utf8 (rev bs)) strings.space_runes) (String.rev u))
    as [post Hpost]. fold w in Hpost.
  assert (u = String.rev w +:+ String.rev post) as Hu'.
  { by rewrite <- rev_app_distr, <- Hpost, rev_involutive. }
  rewrite Hu' in Hu. apply strip_one_prefix in Hu.
  unfold strings.TrimLeftSpace. rewrite (strip_all_none _ _ _ Hu).
  unfold strings.TrimRightSpace. rewrite rev_involutive.
  by rewrite (strip_all_none _ _ _ Hw).
Qed.

Lemma ContainsRune_app (s t : string) c :
  strings.ContainsRune (s +:+ t) c = strings.ContainsRune s c || strings.ContainsRune t c.
Proof.
  induction s as [|a s IH]; [done|]. rewrite string_app_cons.
  cbn [strings.ContainsRune]. by rewrite IH, orb_assoc.
Qed.

Lemma TrimSpace_ContainsRune (s : string) c :
  strings.ContainsRune s c = false -> strings.ContainsRune (strings.TrimSpace s) c = false.
Proof.
  destruct (TrimSpace_infix s) as (pre & post & H). intros Hc. rewrite H in Hc.
  rewrite !ContainsRune_app in Hc.
  apply orb_false_iff in Hc as [_ Hc]. by apply orb_false_iff in Hc as [Hc _].
Qed.

Lemma Split_fields (s : string) sep f :
  f ∈ strings.Split s sep -> strings.ContainsRune f sep = false.
Proof.
  revert f. induction s as [|c s IH]; intros f; cbn [strings.Split].
  { intros ->%list_elem_of_singleton. done. }
  destruct (Ascii.eqb c sep) eqn:Hc.
  - intros [->|Hin]%elem_of_cons; [done|]. by apply IH.
  - destruct (strings.Split s sep) as [|g gs].
    + intros ->%list_elem_of_singleton. cbn. by rewrite Hc.
    + intros [->|Hin]%elem_of_cons.
      * cbn [strings.ContainsRune]. rewrite Hc. apply IH, list_elem_of_here.
      * by apply IH, list_elem_of_further.
Qed.

Lemma splitString_elem (s p : string) :
  p ∈ splitString s ->
  p <> "" /\ exists f, f ∈ strings.Split s "," /\ p = strings.TrimSpace f.
Proof.
  unfold splitString. destruct (String.eqb (strings.TrimSpace s) "").
  { by intros ?%elem_of_nil. }
  intros Hin%list_elem_of_In. apply filter_In in Hin as [Hin Hp].
  apply in_map_iff in Hin as (f & <- & Hf%list_elem_of_In).
  split; [|by exists f]. intros He. by rewrite He in Hp.
Qed.

(** X18.  Every word [splitString] gives is non-empty, has no comma in
    it and no white space on either side. *)
Theorem splitString_words (s p : string) :
  p ∈ splitString s ->
  p <> "" /\ strings.ContainsRune p "," = false /\ strings.TrimSpace p = p.
Proof.
  intros (Hp & f & Hf & ->)%splitString_elem. split; [done|]. split.
  - by apply TrimSpace_ContainsRune, (Split_fields s).
  - apply TrimSpace_idempotent.
Qed.

Lemma splitString_words_witness :
  "https://b.example" <> ""
  /\ strings.ContainsRune "https://b.example" "," = false
  /\ strings.TrimSpace "https://b.example" = "https://b.example".
Proof.
  apply (splitString_words " https://a.example , https://b.example,").
  vm_compute. apply list_elem_of_further, list_elem_of_here.
Defined.

(** ** The configuration read from the environment *)

Lemma fatal_bind_inr {A B : Type} (x : Fatal + A) (k : A -> Fatal + B) b :
  fatal_bind x k = inr b -> exists a, x = inr a /\ k a = inr b.
Proof. destruct x as [f|a]; [done|]. intros H. by exists a. Qed.

Lemma loadSite_inr e g p key cs :
  loadSite e g p key = inr cs ->
  Key cs = key
  /\ To cs = env.Getenv e (env.ToEnvKey key +:+ "_TO")
  /\ strings.TrimSpace (To cs) <> ""
  /\ AllowedOrigins cs = splitString (env.Getenv e (env.ToEnvKey key +:+ "_ALLOWED_ORIGINS"))
  /\ Secret cs = env.Getenv e (env.ToEnvKey key +:+ "_SECRET")
  /\ is_Some (SMTP cs).
Proof.
  unfold loadSite.
  destruct (String.eqb_spec
              (strings.TrimSpace (env.Getenv e (env.ToEnvKey key +:+ "_TO"))) "");
    [done|].
  intros (smtp & _ & [= <-])%fatal_bind_inr. cbn. eauto 10.
Qed.

(** A site is read through the name its key gives, and through nothing
    else of the key. *)
Lemma loadSite_by_name e g p k1 k2 c1 c2 :
  env.ToEnvKey k1 = env.ToEnvKey k2 ->
  loadSite e g p k1 = inr c1 -> loadSite e g p k2 = inr c2 ->
  c2 = mkSiteCfg k2 (To c1) (AllowedOrigins c1) (SubjectPrefix c1) (Secret c1)
         (SMTP c1) (FromAddr c1).
Proof.
  unfold loadSite. intros <-.
  destruct (String.eqb (strings.TrimSpace _) ""); [done|].
  intros (smtp1 & H1 & [= <-])%fatal_bind_inr (smtp2 & H2 & [= <-])%fatal_bind_inr.
  cbn. rewrite H1 in H2. by injection H2 as ->.
Qed.

Lemma loadSites_inv e g p keys m sites k cs :
  loadSites e g p keys m = inr sites -> sites !! k = Some cs ->
  (k ∈ keys /\ loadSite e g p k = inr cs) \/ m !! k = Some cs.
Proof.
  revert m. induction keys as [|key keys IH]; intros m; cbn [loadSites].
  { intros [= <-] ?. by right. }
  destruct (String.eqb key "").
  { intros H Hk. destruct (IH _ H Hk) as [[? ?]|?]; [left|by right].
    split; [by apply list_elem_of_further|done]. }
  intros (c & Hc & H)%fatal_bind_inr Hk.
  destruct (IH _ H Hk) as [[? ?]|Hm].
  { left. split; [by apply list_elem_of_further|done]. }
  destruct (decide (k = key)) as [->|Hne].
  - rewrite lookup_insert_eq in Hm. injection Hm as <-. left.
    split; [apply list_elem_of_here|done].
  - rewrite lookup_insert_ne in Hm by done. by right.
Qed.

Lemma loadSites_dom e g p keys m sites :
  Forall (fun k => k <> "") keys ->
  loadSites e g p keys m = inr sites -> dom sites = dom m ∪ list_to_set keys.
Proof.
  intros Hk. revert m. induction Hk as [|key keys Hne _ IH]; intros m; cbn [loadSites].
  { intros [= <-]. cbn. by rewrite union_empty_r_L. }
  destruct (String.eqb_spec key ""); [done|].
  intros (c & Hc & H)%fatal_bind_inr. rewrite (IH _ H), dom_insert_L. cbn [list_to_set].
  rewrite (comm_L (∪) {[key]} (dom m)). by rewrite <- (assoc_L (∪)).
Qed.

Lemma GetConfig_inr e cfg :
  GetConfig e = inr cfg ->
  exists g, loadGlobalSMTP e = inr g
    /\ loadSitesFromEnv e g (env.Env e "SUBJECT_PREFIX" "[Contact]") = inr (Sites cfg).
Proof.
  unfold GetConfig. intros (g & Hg & H)%fatal_bind_inr. exists g. split; [done|].
  apply fatal_bind_inr in H as (burst & _ & H).
  apply fatal_bind_inr in H as (refill & _ & H).
  apply fatal_bind_inr in H as (aj & _ & H).
  apply fatal_bind_inr in H as (af & _ & H).
  apply fatal_bind_inr in H as (mb & _ & H).
  apply fatal_bind_inr in H as (sites & Hs & [= <-]). done.
Qed.

Lemma loadSitesFromEnv_inr e g p sites :
  loadSitesFromEnv e g p = inr sites ->
  strings.TrimSpace (env.Getenv e "SITES") <> ""
  /\ loadSites e g p (splitString (env.Getenv e "SITES")) ∅ = inr sites.
Proof.
  unfold loadSitesFromEnv.
  by destruct (String.eqb_spec (strings.TrimSpace (env.Getenv e "SITES")) "").
Qed.

Lemma loaded_site e cfg k cs :
  GetConfig e = inr cfg -> Sites cfg !! k = Some cs ->
  k ∈ splitString (env.Getenv e "SITES")
  /\ exists g, loadGlobalSMTP e = inr g
       /\ loadSite e g (env.Env e "SUBJECT_PREFIX" "[Contact]") k = inr cs.
Proof.
  intros (g & Hg & Hs)%GetConfig_inr Hk.
  apply loadSitesFromEnv_inr in Hs as [_ Hs].
  destruct (loadSites_inv _ _ _ _ _ _ _ _ Hs Hk) as [[Hin Hl]|Hm]; [by eauto|].
  by rewrite lookup_empty in Hm.
Qed.

(** X19.  A site of a loaded configuration is listed in [SITES] and is
    filed under its own key; it has a recipient that is not blank, read
    from the variable its key names, and SMTP settings; its allowed
    origins are non-empty words without surrounding white space. *)
Theorem loaded_site_wellformed e cfg k cs :
  GetConfig e = inr cfg -> Sites cfg !! k = Some cs ->
  k ∈ splitString (env.Getenv e "SITES")
  /\ Key cs = k
  /\ To cs = env.Getenv e (env.ToEnvKey k +:+ "_TO")
  /\ strings.TrimSpace (To cs) <> ""
  /\ is_Some (SMTP cs)
  /\ (forall o, o ∈ AllowedOrigins cs -> o <> "" /\ strings.TrimSpace o = o).
Proof.
  intros Hc Hk. destruct (loaded_site _ _ _ _ Hc Hk) as (Hin & g & _ & Hl).
  apply loadSite_inr in Hl as (HK & HT & HT' & HA & _ & HS).
  repeat split; try done.
  - rewrite HA in H. by apply splitString_elem in H as [? _].
  - rewrite HA in H. apply splitString_elem in H as (_ & f & _ & ->).
    apply TrimSpace_idempotent.
Qed.

Lemma example_config_loaded : GetConfig example_env = inr example_config.
Proof. by vm_compute. Qed.

Lemma loaded_site_wellformed_witness :
  let cs := mkSiteCfg "my-site" "ops@example.com"
              ["https://a.example"; "https://b.example"] "[Contact]" ""
              (Some (mkSmtpCfg "smtp.example.com" 587 "user" "pass" false)) "user" in
  "my-site" ∈ splitString (env.Getenv example_env "SITES")
  /\ Key cs = "my-site"
  /\ To cs = env.Getenv example_env (env.ToEnvKey "my-site" +:+ "_TO")
  /\ strings.TrimSpace (To cs) <> ""
  /\ is_Some (SMTP cs)
  /\ (forall o, o ∈ AllowedOrigins cs -> o <> "" /\ strings.TrimSpace o = o).
Proof.
  intros cs. apply (loaded_site_wellformed example_env example_config).
  - by vm_compute.
  - by vm_compute.
Defined.

(** X20.  The sites of a loaded configuration are the words of
    [SITES], no more and no less. *)
Theorem loaded_sites_listed e cfg :
  GetConfig e = inr cfg ->
  dom (Sites cfg) = list_to_set (splitString (env.Getenv e "SITES")).
Proof.
  intros (g & Hg & Hs)%GetConfig_inr. apply loadSitesFromEnv_inr in Hs as [_ Hs].
  assert (Forall (fun k => k <> "") (splitString (env.Getenv e "SITES"))) as Hne.
  { apply Forall_forall. intros k Hk. by apply splitString_elem in Hk as [? _]. }
  by rewrite (loadSites_dom _ _ _ _ _ _ Hne Hs), dom_empty_L, union_empty_l_L.
Qed.

Lemma loaded_sites_listed_witness :
  dom (Sites example_config) = list_to_set (splitString (env.Getenv example_env "SITES")).
Proof. apply loaded_sites_listed. by vm_compute. Defined.

(** X21.  Two sites whose keys give the same name with [ToEnvKey] are
    loaded from the same variables: they differ in the key alone. *)
Theorem sites_share_variables e cfg k1 k2 c1 c2 :
  GetConfig e = inr cfg ->
  Sites cfg !! k1 = Some c1 -> Sites cfg !! k2 = Some c2 ->
  env.ToEnvKey k1 = env.ToEnvKey k2 ->
  c2 = mkSiteCfg k2 (To c1) (AllowedOrigins c1) (SubjectPrefix c1) (Secret c1)
         (SMTP c1) (FromAddr c1).
Proof.
  intros Hc H1 H2 Hk.
  destruct (loaded_site _ _ _ _ Hc H1) as (_ & g1 & Hg1 & Hl1).
  destruct (loaded_site _ _ _ _ Hc H2) as (_ & g2 & Hg2 & Hl2).
  rewrite Hg1 in Hg2. injection Hg2 as <-.
  by apply (loadSite_by_name _ _ _ _ _ _ _ Hk Hl1 Hl2).
Qed.

Lemma sites_share_variables_witness :
  let c1 := mkSiteCfg "my-site" "ops@example.com"
              ["https://a.example"; "https://b.example"] "[Contact]" ""
              (Some (mkSmtpCfg "smtp.example.com" 587 "user" "pass" false)) "user" in
  mkSiteCfg "my_site" "ops@example.com"
    ["https://a.example"; "https://b.example"] "[Contact]" ""
    (Some (mkSmtpCfg "smtp.example.com" 587 "user" "pass" false)) "user"
  = mkSiteCfg "my_site" (To c1) (AllowedOrigins c1) (SubjectPrefix c1) (Secret c1)
      (SMTP c1) (FromAddr c1).
Proof.
  intros c1.
  apply (sites_share_variables example_env example_config "my-site" "my_site");
    by vm_compute.
Defined.

(** X22.  No configuration is loaded without the global SMTP settings
    and a list of sites, whatever the sites set for themselves. *)
Theorem GetConfig_requires e cfg :
  GetConfig e = inr cfg ->
  env.Getenv e "SMTP_HOST" <> ""
  /\ is_Some (strconv.Atoi (env.Getenv e "SMTP_PORT"))
  /\ env.Getenv e "SMTP_USER" <> ""
  /\ env.Getenv e "SMTP_PASS" <> ""
  /\ strings.TrimSpace (env.Getenv e "SITES") <> "".
Proof.
  intros (g & Hg & Hs)%GetConfig_inr. apply loadSitesFromEnv_inr in Hs as [Hs _].
  unfold loadGlobalSMTP in Hg.
  apply fatal_bind_inr in Hg as (host & Hh & Hg).
  apply fatal_bind_inr in Hg as (port & Hp & Hg).
  apply fatal_bind_inr in Hg as (user & Hu & Hg).
  apply fatal_bind_inr in Hg as (pass & Hpw & _).
  unfold env.MustEnv, env.MustEnvInt in *.
  destruct (String.eqb_spec (env.Getenv e "SMTP_HOST") ""); [done|].
  destruct (String.eqb_spec (env.Getenv e "SMTP_USER") ""); [done|].
  destruct (String.eqb_spec (env.Getenv e "SMTP_PASS") ""); [done|].
  destruct (String.eqb (env.Getenv e "SMTP_PORT") ""); [done|].
  destruct (strconv.Atoi _); [|done]. eauto 10.
Qed.

Lemma GetConfig_requires_witness :
  env.Getenv example_env "SMTP_HOST" <> ""
  /\ is_Some (strconv.Atoi (env.Getenv example_env "SMTP_PORT"))
  /\ env.Getenv example_env "SMTP_USER" <> ""
  /\ env.Getenv example_env "SMTP_PASS" <> ""
  /\ strings.TrimSpace (env.Getenv example_env "SITES") <> "".
Proof. apply (GetConfig_requires example_env example_config). by vm_compute. Defined.

(** X23.  Under a loaded configuration a request without an [Origin]
    header is never answered with [Access-Control-Allow-Origin]: no
    allowed origin is the empty string. *)
Theorem no_origin_no_cors `{P : Platform} e cfg now buckets w r :
  GetConfig e = inr cfg ->
  HeaderGet (ReqHeader r) "Origin" = "" ->
  w !! "Access-Control-Allow-Origin" = None ->
  RespHeader (response (HandleContact cfg now buckets w r))
    !! "Access-Control-Allow-Origin" = None.
Proof.
  intros Hc Ho Hw.
  destruct (resolveSite cfg w r) as [resp|[siteKey cs]] eqn:Hr.
  - unfold HandleContact, decode, authenticate, accept. rewrite Hr. cbn [response].
    apply resolveSite_inl in Hr as [-> | (msg & code & ->)].
    + cbn [RespHeader]. unfold HeaderSet. by rewrite !lookup_insert_ne.
    + by rewrite httpError_lookup.
  - rewrite (HandleContact_headers _ _ _ _ _ _ _ _ Hr) by done.
    apply resolveSite_inr in Hr as (_ & _ & Hs).
    rewrite originPolicy_other; [done|]. rewrite Ho. intros Hin.
    destruct (loaded_site _ _ _ _ Hc Hs) as (_ & g & _ & Hl).
    apply loadSite_inr in Hl as (_ & _ & _ & HA & _).
    rewrite HA in Hin. by apply splitString_elem in Hin as [? _].
Qed.

Lemma no_origin_no_cors_witness :
  RespHeader (response (HandleContact (P := reference.platform) example_config 0 ∅ ∅
                          (reference.post "/v1/contact/my-site"
                             [("Content-Type", "application/json")]
                             reference.alice_json)))
    !! "Access-Control-Allow-Origin" = None.
Proof.
  apply (no_origin_no_cors (P := reference.platform) example_env); by vm_compute.
Defined.

(** ** The length of a signature *)

Lemma zip_add_length xs ys :
  length (sha256.zip_add xs ys) = Nat.min (length xs) (length ys).
Proof.
  revert ys. induction xs as [|x xs IH]; intros [|y ys]; cbn; try done.
  by rewrite IH.
Qed.

Lemma round_length st kw : length (sha256.round st kw) = length st.
Proof. by destruct st as [|a [|b [|c [|d [|e [|f [|g [|h [|i st]]]]]]]]]. Qed.

Lemma rounds_length l h : length (fold_left sha256.round l h) = length h.
Proof.
  revert h. induction l as [|kw l IH]; intros h; [done|].
  cbn [fold_left]. by rewrite IH, round_length.
Qed.

Lemma compress_length h block : length (sha256.compress h block) = length h.
Proof.
  unfold sha256.compress. rewrite zip_add_length, rounds_length. apply Nat.min_id.
Qed.

Lemma blocks_length fuel h ws : length (sha256.blocks fuel h ws) = length h.
Proof.
  revert h ws. induction fuel as [|fuel IH]; intros h ws; [done|].
  cbn [sha256.blocks]. destruct ws; [done|]. by rewrite IH, compress_length.
Qed.

Lemma be_bytes_length n x : length (sha256.be_bytes n x) = n.
Proof.
  revert x. induction n as [|n IH]; intros x; [done|].
  cbn [sha256.be_bytes]. rewrite length_app, IH. cbn. lia.
Qed.

Lemma Sum256_length msg : length (sha256.Sum256 msg) = 32%nat.
Proof.
  unfold sha256.Sum256.
  assert (forall l, length (flat_map (sha256.be_bytes 4) l) = (4 * length l)%nat) as Hf.
  { induction l as [|x l IH]; [done|].
    cbn [flat_map]. rewrite length_app, be_bytes_length, IH. cbn [length]. lia. }
  by rewrite Hf, blocks_length.
Qed.

Lemma of_bytes_length bs : String.length (strings.of_bytes bs) = length bs.
Proof.
  unfold strings.of_bytes. induction bs as [|b bs IH]; [done|].
  cbn [map string_of_list_ascii String.length]. by rewrite IH.
Qed.

Lemma EncodeToString_length s :
  String.length (strings.EncodeToString s) = (2 * String.length s)%nat.
Proof.
  induction s as [|c s IH]; [done|].
  cbn [strings.EncodeToString String.length]. rewrite IH. lia.
Qed.

Lemma ToLower_length s : String.length (strings.ToLower s) = String.length s.
Proof.
  unfold strings.ToLower. induction s as [|c s IH]; [done|].
  cbn [strings.map_bytes String.length]. by rewrite IH.
Qed.

(** X24.  A signature that is accepted has 64 characters: two for each
    of the 32 bytes of the MAC, whatever the secret and the body. *)
Theorem accepted_signature_length body secret hexSig :
  verifyHMAC body secret hexSig = true -> String.length hexSig = 64%nat.
Proof.
  intros (_ & _ & H)%verifyHMAC_true.
  rewrite <- ToLower_length, H, EncodeToString_length.
  unfold hmac_sha256, hmac.Sum. by rewrite of_bytes_length, Sum256_length.
Qed.

Lemma accepted_signature_length_witness :
  String.length "6303379DE3ACB2B7246AB6E47ABB28CFD1927506FC975DF5E6AA71189D0BC0F1"
  = 64%nat.
Proof.
  apply (accepted_signature_length reference.alice_json "s3cret"). by vm_compute.
Defined.
